(** * SuiteSparse:GraphBLAS — the sparse matrix-multiply engine

    A shallow embedding of the parts of the repository that the
    specification talks about:

    - [GBMemcpy]    : Source/GB_memcpy.c, the chunked parallel memcpy;
    - [Mis]         : Demo/Source/mis.c, the convergence loop and its stall test;
    - [GbHash]      : the gbhash mexFunction, whose body is under [#if 0];
    - [Kernels]     : the dot-product, saxpy and reduction kernels;
    - [Dot2]        : Source/GB_AxB_dot2.c, the two-phase driver.

    Integers of the C code are [Z]; the wrap-around of [int64_t] and
    [size_t] arithmetic is written out where the code computes with them. *)

From Stdlib Require Import ZArith List Lia Bool Permutation Sorted String.
From stdpp Require Import base list.
Import ListNotations.

Local Open Scope Z_scope.

(* ===================================================================== *)
(** * Machine integers *)
(* ===================================================================== *)

Module CInt.

(** [size_t] and [GrB_Index] are 64-bit unsigned, [int64_t] is 64-bit
    two's complement, [int8_t] is 8-bit two's complement. *)
Definition size_t (z : Z) : Z := z mod 2 ^ 64.
Definition int64_t (z : Z) : Z := (z + 2 ^ 63) mod 2 ^ 64 - 2 ^ 63.
Definition int8_t (z : Z) : Z := (z + 2 ^ 7) mod 2 ^ 8 - 2 ^ 7.

Definition INT8_MIN : Z := -128.
Definition INT8_MAX : Z := 127.
Definition INT64_MAX : Z := 2 ^ 63 - 1.

Definition is_size_t (z : Z) : Prop := 0 <= z < 2 ^ 64.
Definition is_int64 (z : Z) : Prop := - 2 ^ 63 <= z < 2 ^ 63.
Definition is_int8 (z : Z) : Prop := -128 <= z <= 127.

(** GB.h: [#define GB_IMIN(x,y) (((x) < (y)) ? (x) : (y))] and
    [#define GB_IMAX(x,y) (((x) > (y)) ? (x) : (y))]. *)
Definition GB_IMIN (x y : Z) : Z := if x <? y then x else y.
Definition GB_IMAX (x y : Z) : Z := if x >? y then x else y.

Lemma size_t_id z : is_size_t z -> size_t z = z.
Proof. unfold is_size_t, size_t. intros H. apply Z.mod_small. exact H. Qed.

Lemma int64_t_id z : is_int64 z -> int64_t z = z.
Proof.
  unfold is_int64, int64_t. intros H.
  rewrite Z.mod_small by lia. lia.
Qed.

Lemma GB_IMIN_min x y : GB_IMIN x y = Z.min x y.
Proof. unfold GB_IMIN. destruct (Z.ltb_spec x y); lia. Qed.

Lemma GB_IMAX_max x y : GB_IMAX x y = Z.max x y.
Proof. unfold GB_IMAX. destruct (Z.gtb_spec x y); lia. Qed.

End CInt.

(* ===================================================================== *)
(** * Source/GB_memcpy.c *)
(* ===================================================================== *)

Module GBMemcpy.
Import CInt.

(** Memory is a map from addresses to bytes.  Next to the bytes the state
    counts, for every address, how many times it has been stored to. *)
Record state : Type := mkState {
  bytes  : Z -> Byte.byte ;
  stores : Z -> nat
}.

Definition init (m : Z -> Byte.byte) : state :=
  {| bytes := m ; stores := fun _ => 0%nat |}.

Definition in_range (base len a : Z) : bool :=
  (base <=? a) && (a <? base + len).

(** [memcpy (dest, src, n)] of the C library, on buffers that do not
    overlap: destination byte [dest+d] receives source byte [src+d]. *)
Definition memcpy (dest src n : Z) (st : state) : state :=
  {| bytes  := fun a => if in_range dest n a
                        then bytes st (src + (a - dest)) else bytes st a ;
     stores := fun a => if in_range dest n a
                        then S (stores st a) else stores st a |}.

(** [#define GB_CHUNK (1024*1024)] *)
Definition GB_CHUNK : Z := 1024 * 1024.

(** The body of the [for (size_t k = 0 ; k < nchunks ; k++)] loop. *)
Definition chunk_body (dest src n : Z) (st : state) (k : Z) : state :=
  let start := size_t (k * GB_CHUNK) in
  if start <? n then
    let chunk := GB_IMIN (size_t (n - start)) GB_CHUNK in
    memcpy (dest + start) (src + start) chunk st
  else st.

(** The iteration space [0 .. nchunks-1] of the parallel loop. *)
Definition iterations (nchunks : Z) : list Z :=
  map Z.of_nat (seq 0 (Z.to_nat nchunks)).

(** [GB_memcpy], with the order in which the OpenMP runtime hands the
    iterations of the [schedule (dynamic,1)] loop to the team made
    explicit: [sched nthreads nchunks] is that order. *)
Definition GB_memcpy_sched (sched : Z -> Z -> list Z)
    (dest src n nthreads : Z) (st : state) : state :=
  if (nthreads <=? 1) || (n <=? GB_CHUNK) then
    memcpy dest src n st
  else
    let nthreads := GB_IMIN nthreads (n / GB_CHUNK) in
    let nchunks := size_t (1 + n / GB_CHUNK) in
    fold_left (chunk_body dest src n) (sched nthreads nchunks) st.

(** A schedule is admissible when it runs every iteration exactly once. *)
Definition admissible (sched : Z -> Z -> list Z) : Prop :=
  forall nthreads nchunks,
    Permutation (sched nthreads nchunks) (iterations nchunks).

(** The schedule of a single thread: iterations in increasing order. *)
Definition in_order (nthreads nchunks : Z) : list Z := iterations nchunks.

Definition GB_memcpy := GB_memcpy_sched in_order.

(** A schedule that depends on the team size: with an even number of
    threads the iterations run in decreasing order. *)
Definition zigzag (nthreads nchunks : Z) : list Z :=
  if Z.even nthreads then rev (iterations nchunks) else iterations nchunks.

(** Source and destination buffers of [n] bytes do not overlap. *)
Definition disjoint (dest src n : Z) : Prop :=
  src + n <= dest \/ dest + n <= src.

(** Address [a] belongs to the destination range of chunk [k]. *)
Definition in_chunk (dest n : Z) (a k : Z) : bool :=
  (k * GB_CHUNK <? n) &&
  in_range (dest + k * GB_CHUNK) (Z.min (n - k * GB_CHUNK) GB_CHUNK) a.

(** ** Properties *)

Lemma in_range_spec base len a :
  in_range base len a = true <-> base <= a < base + len.
Proof. unfold in_range. rewrite andb_true_iff, Z.leb_le, Z.ltb_lt. tauto. Qed.

Lemma chunk_body_unfold dest src n st k :
  is_size_t n -> 0 <= k <= n / GB_CHUNK ->
  chunk_body dest src n st k =
    if k * GB_CHUNK <? n
    then memcpy (dest + k * GB_CHUNK) (src + k * GB_CHUNK)
                (Z.min (n - k * GB_CHUNK) GB_CHUNK) st
    else st.
Proof.
  intros Hn Hk. unfold chunk_body, is_size_t in *.
  assert (HC : 0 < GB_CHUNK) by reflexivity.
  assert (Hle : k * GB_CHUNK <= n).
  { transitivity (n / GB_CHUNK * GB_CHUNK); [nia|].
    rewrite Z.mul_comm. apply Z.mul_div_le; lia. }
  rewrite (size_t_id (k * GB_CHUNK)) by (unfold is_size_t; nia).
  destruct (Z.ltb_spec (k * GB_CHUNK) n); [|reflexivity].
  rewrite size_t_id by (unfold is_size_t; lia).
  now rewrite GB_IMIN_min.
Qed.

Lemma in_chunk_dest dest n a k :
  0 <= k -> in_chunk dest n a k = true -> dest <= a < dest + n.
Proof.
  unfold in_chunk. rewrite andb_true_iff, Z.ltb_lt, in_range_spec.
  assert (HC : 0 < GB_CHUNK) by reflexivity. nia.
Qed.

(** Inside the buffer, address [a] lies in the chunk [(a-dest)/GB_CHUNK]
    and in no other. *)
Lemma in_chunk_unique dest n a k :
  0 <= k -> dest <= a < dest + n ->
  in_chunk dest n a k = (k =? (a - dest) / GB_CHUNK).
Proof.
  intros Hk Ha. unfold in_chunk, in_range.
  assert (HC : 0 < GB_CHUNK) by reflexivity.
  pose proof (Z.div_mod (a - dest) GB_CHUNK ltac:(lia)) as Hdm.
  pose proof (Z.mod_pos_bound (a - dest) GB_CHUNK HC) as Hm.
  destruct (Z.eqb_spec k ((a - dest) / GB_CHUNK)) as [->|Hne].
  - rewrite !andb_true_iff, Z.ltb_lt, Z.leb_le, Z.ltb_lt. lia.
  - rewrite !andb_false_iff, Z.ltb_ge, Z.leb_gt, Z.ltb_ge.
    destruct (Z.lt_ge_cases k ((a - dest) / GB_CHUNK)).
    + right. right. nia.
    + right. left. nia.
Qed.

(** What a run of chunks does to a state whose source buffer still holds
    the original bytes [m]. *)
Lemma fold_chunks dest src n m l :
  is_size_t n -> disjoint dest src n ->
  Forall (fun k => 0 <= k <= n / GB_CHUNK) l ->
  forall st,
    (forall a, src <= a < src + n -> bytes st a = m a) ->
    let st' := fold_left (chunk_body dest src n) l st in
    forall a,
      bytes st' a = (if existsb (in_chunk dest n a) l
                     then m (src + (a - dest)) else bytes st a)
      /\ stores st' a
         = (stores st a + length (List.filter (in_chunk dest n a) l))%nat.
Proof.
  intros Hn Hdis Hl. induction Hl as [|k l Hk Hl IH]; intros st Hsrc; cbn.
  - intros a. split; [reflexivity | lia].
  - intros a.
    assert (HC : 0 < GB_CHUNK) by reflexivity.
    assert (Hle : k * GB_CHUNK <= n).
    { transitivity (n / GB_CHUNK * GB_CHUNK); [nia|].
      rewrite Z.mul_comm. apply Z.mul_div_le; lia. }
    assert (Hsrc' : forall b, src <= b < src + n ->
                      bytes (chunk_body dest src n st k) b = m b).
    { intros b Hb. rewrite chunk_body_unfold by assumption.
      destruct (Z.ltb_spec (k * GB_CHUNK) n); [|now apply Hsrc].
      cbn. destruct (in_range _ _ b) eqn:E; [|now apply Hsrc].
      apply in_range_spec in E. unfold disjoint in Hdis. lia. }
    destruct (IH _ Hsrc' a) as [Hb Hs]. rewrite Hb, Hs. clear Hb Hs IH.
    rewrite chunk_body_unfold by assumption.
    cbn [existsb List.filter].
    assert (Hin : in_chunk dest n a k
                  = (k * GB_CHUNK <? n) &&
                    in_range (dest + k * GB_CHUNK)
                             (Z.min (n - k * GB_CHUNK) GB_CHUNK) a)
      by reflexivity.
    destruct (Z.ltb_spec (k * GB_CHUNK) n) as [Hlt|Hge];
      cbn [andb] in Hin; rewrite Hin; cbn [orb]; [|split; [reflexivity | lia]].
    cbn [memcpy bytes stores].
    destruct (in_range _ _ a) eqn:E; cbn [orb length];
      [|split; [reflexivity | lia]].
    apply in_range_spec in E.
    replace (src + k * GB_CHUNK + (a - (dest + k * GB_CHUNK)))
      with (src + (a - dest)) by lia.
    rewrite Hsrc by lia.
    split; [now destruct (existsb _ l) | lia].
Qed.

Lemma iterations_range nchunks k :
  In k (iterations nchunks) <-> 0 <= k < nchunks.
Proof.
  unfold iterations. rewrite in_map_iff. split.
  - intros [i [<- Hi]]. apply in_seq in Hi. lia.
  - intros Hk. exists (Z.to_nat k). split; [lia|]. apply in_seq. lia.
Qed.

Lemma count_in_seq k0 len s :
  length (List.filter (fun k => k =? k0) (map Z.of_nat (seq s len)))
  = if (Z.of_nat s <=? k0) && (k0 <? Z.of_nat (s + len)) then 1%nat else 0%nat.
Proof.
  revert s. induction len as [|len IH]; intros s; cbn [seq map List.filter].
  - destruct (Z.leb_spec (Z.of_nat s) k0), (Z.ltb_spec k0 (Z.of_nat (s + 0)));
      cbn; try reflexivity; lia.
  - destruct (Z.eqb_spec (Z.of_nat s) k0) as [E|E]; cbn [length]; rewrite IH.
    + destruct (Z.leb_spec (Z.of_nat (S s)) k0); cbn [andb]; [lia|].
      destruct (Z.leb_spec (Z.of_nat s) k0),
               (Z.ltb_spec k0 (Z.of_nat (s + S len))); cbn; try reflexivity; lia.
    + destruct (Z.leb_spec (Z.of_nat (S s)) k0),
               (Z.leb_spec (Z.of_nat s) k0),
               (Z.ltb_spec k0 (Z.of_nat (S s + len))),
               (Z.ltb_spec k0 (Z.of_nat (s + S len)));
        cbn; try reflexivity; lia.
Qed.

(** Every address of the destination buffer lies in exactly one chunk of
    the iteration space, every other address in none. *)
Lemma count_chunks dest n a :
  0 <= n ->
  length (List.filter (in_chunk dest n a) (iterations (1 + n / GB_CHUNK)))
  = if in_range dest n a then 1%nat else 0%nat.
Proof.
  intros Hn.
  assert (HC : 0 < GB_CHUNK) by reflexivity.
  assert (Hq : 0 <= n / GB_CHUNK) by (apply Z.div_pos; lia).
  destruct (in_range dest n a) eqn:E.
  - apply in_range_spec in E.
    rewrite (filter_ext_in _ (fun k => k =? (a - dest) / GB_CHUNK)).
    2:{ intros k Hk. apply iterations_range in Hk.
        apply in_chunk_unique; lia. }
    unfold iterations. rewrite count_in_seq.
    assert (0 <= (a - dest) / GB_CHUNK <= n / GB_CHUNK).
    { split; [apply Z.div_pos; lia | apply Z.div_le_mono; lia]. }
    destruct (Z.leb_spec (Z.of_nat 0) ((a - dest) / GB_CHUNK)),
             (Z.ltb_spec ((a - dest) / GB_CHUNK)
                         (Z.of_nat (0 + Z.to_nat (1 + n / GB_CHUNK))));
      cbn; try reflexivity; lia.
  - rewrite (filter_ext_in _ (fun _ => false)).
    2:{ intros k Hk. apply iterations_range in Hk.
        destruct (in_chunk dest n a k) eqn:F; [|reflexivity].
        apply in_chunk_dest in F; [|lia].
        apply in_range_spec in F. congruence. }
    induction (iterations _); cbn; auto.
Qed.

Lemma existsb_filter {A} (f : A -> bool) l :
  existsb f l = negb (Nat.eqb (length (List.filter f l)) 0).
Proof. induction l as [|x l IH]; cbn; [reflexivity|]. destruct (f x); cbn; auto. Qed.

Lemma filter_length_perm {A} (f : A -> bool) l1 l2 :
  Permutation l1 l2 ->
  length (List.filter f l1) = length (List.filter f l2).
Proof.
  induction 1 as [|x l1 l2 _ IH|x y l|l1 l2 l3 _ IH1 _ IH2]; cbn.
  - reflexivity.
  - destruct (f x); cbn; congruence.
  - destruct (f x), (f y); reflexivity.
  - congruence.
Qed.

Lemma in_order_admissible : admissible in_order.
Proof. intros nthreads nchunks. apply Permutation_refl. Qed.

Lemma zigzag_admissible : admissible zigzag.
Proof.
  intros nthreads nchunks. unfold zigzag.
  destruct (Z.even nthreads);
    [apply Permutation_sym, Permutation_rev | apply Permutation_refl].
Qed.

(** The state that [memcpy] leaves, address by address. *)
Lemma memcpy_init dest src n m a :
  bytes (memcpy dest src n (init m)) a
    = (if in_range dest n a then m (src + (a - dest)) else m a)
  /\ stores (memcpy dest src n (init m)) a
    = (if in_range dest n a then 1%nat else 0%nat).
Proof. cbn. split; reflexivity. Qed.

(** The state that [GB_memcpy] leaves under any admissible schedule,
    address by address. *)
Lemma GB_memcpy_sched_pointwise sched dest src n nthreads m a :
  admissible sched -> is_size_t n -> disjoint dest src n ->
  let st := GB_memcpy_sched sched dest src n nthreads (init m) in
  bytes st a = (if in_range dest n a then m (src + (a - dest)) else m a)
  /\ stores st a = (if in_range dest n a then 1%nat else 0%nat).
Proof.
  intros Hs Hn Hdis. unfold GB_memcpy_sched.
  destruct ((nthreads <=? 1) || (n <=? GB_CHUNK)); [apply memcpy_init|].
  assert (HC : 0 < GB_CHUNK) by reflexivity.
  assert (Hq : 0 <= n / GB_CHUNK < 2 ^ 44).
  { unfold is_size_t in Hn. split; [apply Z.div_pos; lia|].
    apply Z.div_lt_upper_bound; [lia|]. unfold GB_CHUNK. lia. }
  rewrite (size_t_id (1 + n / GB_CHUNK)) by (unfold is_size_t; lia).
  set (l := sched _ _).
  assert (Hperm : Permutation l (iterations (1 + n / GB_CHUNK))) by apply Hs.
  assert (Hl : Forall (fun k => 0 <= k <= n / GB_CHUNK) l).
  { apply List.Forall_forall. intros k Hk.
    apply (Permutation_in _ Hperm), iterations_range in Hk. lia. }
  destruct (fold_chunks dest src n m l Hn Hdis Hl (init m)
              (fun _ _ => eq_refl) a) as [Hb Hst].
  cbv zeta. rewrite Hb, Hst, existsb_filter, (filter_length_perm _ _ _ Hperm).
  rewrite count_chunks by (unfold is_size_t in Hn; lia).
  destruct (in_range dest n a); split; reflexivity.
Qed.

(** C9.  For every byte count [n] that a [size_t] holds, every thread
    count, every pair of buffers that do not overlap and every order in
    which the OpenMP team may run the chunk iterations, [GB_memcpy] leaves
    the same memory as the sequential [memcpy (dest, src, n)]: the
    destination holds the bytes [src[0..n)], each of its bytes has been
    stored to exactly once, and no other address has been stored to. *)
Theorem GB_memcpy_is_memcpy sched dest src n nthreads m :
  admissible sched -> is_size_t n -> disjoint dest src n ->
  let st := GB_memcpy_sched sched dest src n nthreads (init m) in
  (forall a, bytes st a = bytes (memcpy dest src n (init m)) a)
  /\ (forall a, dest <= a < dest + n ->
        bytes st a = m (src + (a - dest)) /\ stores st a = 1%nat)
  /\ (forall a, ~ (dest <= a < dest + n) ->
        bytes st a = m a /\ stores st a = 0%nat).
Proof.
  intros Hs Hn Hdis st.
  assert (P := fun a =>
    GB_memcpy_sched_pointwise sched dest src n nthreads m a Hs Hn Hdis).
  cbv zeta in P. fold st in P. repeat split.
  - intros a. destruct (P a) as [-> _]. now rewrite (proj1 (memcpy_init _ _ _ _ _)).
  - destruct (P a) as [-> _]. apply in_range_spec in H. now rewrite H.
  - destruct (P a) as [_ ->]. apply in_range_spec in H. now rewrite H.
  - destruct (P a) as [-> _]. destruct (in_range dest n a) eqn:E; [|reflexivity].
    apply in_range_spec in E. contradiction.
  - destruct (P a) as [_ ->]. destruct (in_range dest n a) eqn:E; [|reflexivity].
    apply in_range_spec in E. contradiction.
Qed.

(** Three chunks and a remainder of seven bytes, copied by four threads
    that take the chunks in decreasing order. *)
Lemma GB_memcpy_is_memcpy_witness :
  let m := fun a : Z => if a =? 8388608 + 3145730 then Byte.x2a else Byte.x00 in
  let st := GB_memcpy_sched zigzag 0 8388608 (3 * 1048576 + 7) 4 (init m) in
  admissible zigzag /\ is_size_t (3 * 1048576 + 7)
  /\ disjoint 0 8388608 (3 * 1048576 + 7)
  /\ bytes st 3145730 = Byte.x2a /\ stores st 3145730 = 1%nat.
Proof.
  intros m st.
  assert (Hn : is_size_t (3 * 1048576 + 7)) by (unfold is_size_t; lia).
  assert (Hd : disjoint 0 8388608 (3 * 1048576 + 7)) by (unfold disjoint; lia).
  pose proof (GB_memcpy_is_memcpy zigzag 0 8388608 (3 * 1048576 + 7) 4 m
                zigzag_admissible Hn Hd) as [_ [Hin _]].
  exact (conj zigzag_admissible (conj Hn (conj Hd (Hin 3145730 ltac:(lia))))).
Defined.

(** ** The chunks and the team *)

(** Iteration [k] of the parallel loop copies the [k]-th block of
    [GB_CHUNK] bytes when the buffer holds all of it.  The last iteration,
    [k = n / GB_CHUNK], copies the [n mod GB_CHUNK] bytes that remain, and
    calls [memcpy] not at all when [n] is a multiple of [GB_CHUNK]. *)
Theorem chunks_tile dest src n st k :
  is_size_t n -> 0 <= k <= n / GB_CHUNK ->
  chunk_body dest src n st k
  = if k <? n / GB_CHUNK then
      memcpy (dest + k * GB_CHUNK) (src + k * GB_CHUNK) GB_CHUNK st
    else if n mod GB_CHUNK =? 0 then st
    else memcpy (dest + k * GB_CHUNK) (src + k * GB_CHUNK)
                (n mod GB_CHUNK) st.
Proof.
  intros Hn Hk. rewrite chunk_body_unfold by assumption.
  unfold is_size_t in Hn.
  assert (HC : 0 < GB_CHUNK) by reflexivity.
  pose proof (Z.div_mod n GB_CHUNK ltac:(lia)) as Hdm.
  pose proof (Z.mod_pos_bound n GB_CHUNK HC) as Hm.
  destruct (Z.ltb_spec k (n / GB_CHUNK)) as [Hlt|Hge].
  - destruct (Z.ltb_spec (k * GB_CHUNK) n); [|nia].
    f_equal. nia.
  - assert (k = n / GB_CHUNK) by lia. subst k.
    destruct (Z.eqb_spec (n mod GB_CHUNK) 0) as [E|E].
    + destruct (Z.ltb_spec (n / GB_CHUNK * GB_CHUNK) n); [lia | reflexivity].
    + destruct (Z.ltb_spec (n / GB_CHUNK * GB_CHUNK) n); [|lia].
      f_equal. lia.
Qed.

(** When the copy is done in parallel, the team that the loop asks for has
    at least one thread, no more threads than the caller allows and no
    more than the buffer has full chunks; the loop has one iteration more
    than there are full chunks, and no [size_t] wraps around. *)
Theorem team_size sched dest src n nthreads st :
  is_size_t n -> 1 < nthreads -> GB_CHUNK < n ->
  GB_memcpy_sched sched dest src n nthreads st
  = fold_left (chunk_body dest src n)
              (sched (Z.min nthreads (n / GB_CHUNK)) (n / GB_CHUNK + 1)) st
  /\ 1 <= Z.min nthreads (n / GB_CHUNK) <= nthreads
  /\ Z.min nthreads (n / GB_CHUNK) <= n / GB_CHUNK.
Proof.
  intros Hn Ht Hc. unfold GB_memcpy_sched, is_size_t in *.
  assert (HC : 0 < GB_CHUNK) by reflexivity.
  assert (Hq : 1 <= n / GB_CHUNK).
  { apply Z.div_le_lower_bound; lia. }
  assert (Hq' : n / GB_CHUNK < n) by (apply Z.div_lt; [lia | reflexivity]).
  destruct (Z.leb_spec nthreads 1); [lia|].
  destruct (Z.leb_spec n GB_CHUNK); [lia|]. cbn [orb].
  rewrite GB_IMIN_min, size_t_id by (unfold is_size_t; lia).
  replace (1 + n / GB_CHUNK) with (n / GB_CHUNK + 1) by lia.
  split; [reflexivity | lia].
Qed.

Lemma chunks_tile_witness :
  is_size_t (2 * GB_CHUNK)
  /\ 0 <= 2 <= 2 * GB_CHUNK / GB_CHUNK
  /\ chunk_body 0 (4 * GB_CHUNK) (2 * GB_CHUNK)
                (init (fun _ => Byte.x00)) 2
     = init (fun _ => Byte.x00).
Proof.
  assert (H1 : is_size_t (2 * GB_CHUNK)) by (vm_compute; split; congruence).
  assert (H2 : 0 <= 2 <= 2 * GB_CHUNK / GB_CHUNK)
    by (vm_compute; split; congruence).
  exact (conj H1 (conj H2
    (chunks_tile 0 (4 * GB_CHUNK) (2 * GB_CHUNK)
                 (init (fun _ => Byte.x00)) 2 H1 H2))).
Defined.

Lemma team_size_witness :
  is_size_t (3 * GB_CHUNK + 7) /\ 1 < 8 /\ GB_CHUNK < 3 * GB_CHUNK + 7
  /\ 1 <= Z.min 8 ((3 * GB_CHUNK + 7) / GB_CHUNK) <= 8.
Proof.
  assert (H1 : is_size_t (3 * GB_CHUNK + 7)) by (vm_compute; split; congruence).
  assert (H2 : 1 < 8) by reflexivity.
  assert (H3 : GB_CHUNK < 3 * GB_CHUNK + 7) by reflexivity.
  exact (conj H1 (conj H2 (conj H3
    (proj1 (proj2 (team_size zigzag 0 (4 * GB_CHUNK) (3 * GB_CHUNK + 7) 8
                             (init (fun _ => Byte.x00)) H1 H2 H3)))))).
Defined.

End GBMemcpy.

(* ===================================================================== *)
(** * Demo/Source/mis.c: the convergence loop *)
(* ===================================================================== *)

Module Mis.
Import CInt.

Section Loop.

(** The GraphBLAS calls of one pass over the loop body act on the vectors
    of the demo; here they are two transformers of the program's vectors:
    lines 129-152 remove the new members from the candidates, lines 158-161
    remove their neighbours.  [GrB_Vector_nvals (&nvals, candidates)] stores
    the number of candidates in the [GrB_Index] variable [nvals]. *)
Variable vectors : Type.
Variable remove_new_members : vectors -> vectors.
Variable remove_new_neighbors : vectors -> vectors.
Variable count_candidates : vectors -> Z.

Definition GrB_Vector_nvals (v : vectors) : Z := size_t (count_candidates v).

(** The variables of the loop: [GrB_Index nvals] and [int64_t last_nvals]. *)
Record locals : Type := mkLocals {
  vecs : vectors ;
  nvals : Z ;
  last_nvals : Z
}.

Inductive status : Type :=
| Continue (l : locals)        (* back to the loop test *)
| Return (l : locals)          (* the loop is left, [mis] returns GrB_SUCCESS *)
| Exit (code : Z).             (* [exit (1)] after printing "stall!" *)

(** Lines 121-124: the state in which the loop is entered. *)
Definition enter (v : vectors) : locals :=
  {| vecs := v ;
     nvals := GrB_Vector_nvals v ;
     last_nvals := int64_t (GrB_Vector_nvals v) |}.

(** One pass over the body of [while (nvals > 0)], lines 128-167.  The
    comparison [last_nvals == nvals] is between an [int64_t] and a
    [GrB_Index]: the signed operand is converted to unsigned. *)
Definition body (l : locals) : status :=
  let v1 := remove_new_members (vecs l) in
  let nvals1 := GrB_Vector_nvals v1 in
  if nvals1 =? 0 then
    Return {| vecs := v1 ; nvals := nvals1 ; last_nvals := last_nvals l |}
  else
    let v2 := remove_new_neighbors v1 in
    let nvals2 := GrB_Vector_nvals v2 in
    if size_t (last_nvals l) =? nvals2 then Exit 1
    else Continue {| vecs := v2 ; nvals := nvals2 ;
                     last_nvals := int64_t nvals2 |}.

(** The loop test followed by the body. *)
Definition step (l : locals) : status :=
  if nvals l >? 0 then body l else Return l.

Inductive outcome : Type :=
| Returned (l : locals)
| Exited (code : Z)
| Running (l : locals).        (* the bound on the passes was reached *)

(** At most [passes] passes over the loop.  The result lists the candidate
    count with which each executed pass was entered. *)
Fixpoint loop (passes : nat) (l : locals) : list Z * outcome :=
  match passes with
  | O => ([], Running l)
  | S passes' =>
      match step l with
      | Continue l' =>
          let (counts, o) := loop passes' l' in (nvals l :: counts, o)
      | Return l' =>
          ((if nvals l >? 0 then [nvals l] else []), Returned l')
      | Exit code => ([nvals l], Exited code)
      end
  end.

(** The locals with which a pass can be entered in a run that starts
    from [l0]. *)
Inductive reaches (l0 : locals) : locals -> Prop :=
| reaches_start : reaches l0 l0
| reaches_pass l l' :
    reaches l0 l -> step l = Continue l' -> reaches l0 l'.

(** No two neighbours of the list are equal. *)
Fixpoint no_repeat (counts : list Z) : Prop :=
  match counts with
  | a :: rest =>
      match rest with b :: _ => a <> b | [] => True end /\ no_repeat rest
  | [] => True
  end.

(** What holds of the locals every time the loop test is reached. *)
Definition at_test (l : locals) : Prop :=
  is_size_t (nvals l) /\ nvals l = GrB_Vector_nvals (vecs l)
  /\ last_nvals l = int64_t (nvals l).

(** A pass stalls when it runs to the stall test and the count after its
    second removal is the count with which the pass was entered. *)
Definition stalls (l : locals) : Prop :=
  nvals l > 0 /\
  GrB_Vector_nvals (remove_new_members (vecs l)) <> 0 /\
  GrB_Vector_nvals (remove_new_neighbors (remove_new_members (vecs l)))
    = nvals l.

(** ** Properties *)

Lemma size_t_range z : is_size_t (size_t z).
Proof. unfold is_size_t, size_t. apply Z.mod_pos_bound. reflexivity. Qed.

Lemma size_t_int64_t z : is_size_t z -> size_t (int64_t z) = z.
Proof.
  unfold is_size_t, size_t, int64_t.
  change (2 ^ 64) with 18446744073709551616.
  change (2 ^ 63) with 9223372036854775808.
  intros H. Z.div_mod_to_equations. lia.
Qed.

Lemma enter_at_test v : at_test (enter v).
Proof. unfold at_test, enter; cbn. repeat split; apply size_t_range. Qed.

Lemma body_cases l :
  at_test l ->
  match body l with
  | Continue l' => at_test l' /\ nvals l' <> nvals l
  | Return l' => nvals l' = 0
  | Exit code => code = 1 /\ stalls l \/ code = 1 /\ nvals l = 0
  end.
Proof.
  intros (Hr & Hn & Hl). unfold body.
  destruct (Z.eqb_spec (GrB_Vector_nvals (remove_new_members (vecs l))) 0)
    as [E|E]; [exact E|].
  rewrite Hl, size_t_int64_t by exact Hr.
  destruct (Z.eqb_spec (nvals l)
      (GrB_Vector_nvals (remove_new_neighbors (remove_new_members (vecs l)))))
    as [F|F].
  - destruct (Z.eq_dec (nvals l) 0) as [Z0|Z0]; [right; auto|].
    left. unfold stalls, is_size_t in *. repeat split; auto; lia.
  - unfold at_test; cbn. repeat split; try apply size_t_range. congruence.
Qed.

Lemma reaches_at_test v l : reaches (enter v) l -> at_test l.
Proof.
  induction 1 as [|l l' _ IH Hs]; [apply enter_at_test|].
  unfold step in Hs. destruct (nvals l >? 0); [|discriminate].
  pose proof (body_cases l IH) as H. rewrite Hs in H. apply H.
Qed.

Lemma stall_exits l : at_test l -> stalls l -> step l = Exit 1.
Proof.
  intros (Hr & Hn & Hl) (Hpos & H1 & H2). unfold step, body.
  destruct (Z.gtb_spec (nvals l) 0); [|lia].
  destruct (Z.eqb_spec (GrB_Vector_nvals (remove_new_members (vecs l))) 0);
    [contradiction|].
  rewrite Hl, size_t_int64_t, H2, Z.eqb_refl by exact Hr. reflexivity.
Qed.

Lemma loop_no_repeat passes : forall l,
  at_test l -> no_repeat (fst (loop passes l)).
Proof.
  induction passes as [|passes IH]; intros l Hl; cbn; [exact I|].
  unfold step. destruct (Z.gtb_spec (nvals l) 0) as [Hpos|Hpos]; [|exact I].
  pose proof (body_cases l Hl) as H.
  destruct (body l) as [l'|l'|code]; cbn; auto.
  destruct H as [Hl' Hne]. specialize (IH l' Hl').
  destruct (loop passes l') as [counts o] eqn:E. cbn in *.
  split; [|exact IH].
  destruct counts as [|b counts]; [exact I|].
  (* the next pass was entered with the count of [l'] *)
  destruct passes as [|passes]; [discriminate|]. cbn in E.
  unfold step in E. destruct (nvals l' >? 0); [|discriminate].
  destruct (body l') as [l''|l''|code];
    [destruct (loop passes l'')| |]; inversion E; subst; auto.
Qed.

(** C8.  In the convergence loop of [mis] a pass that stalls, that is, one
    that reaches the stall test with the candidate count with which it was
    entered, ends the program at once with [exit (1)]; the loop never runs
    two consecutive passes that are entered with the same candidate
    count. *)
Theorem stall_is_fatal (v : vectors) :
  (forall l, reaches (enter v) l -> stalls l ->
     step l = Exit 1 /\
     forall passes, loop (S passes) l = ([nvals l], Exited 1))
  /\ (forall l l', reaches (enter v) l -> step l = Continue l' ->
        nvals l' <> nvals l)
  /\ (forall passes, no_repeat (fst (loop passes (enter v)))).
Proof.
  split; [|split].
  - intros l Hr Hs. apply reaches_at_test in Hr.
    pose proof (stall_exits l Hr Hs) as E. split; [exact E|].
    intros passes. cbn. now rewrite E.
  - intros l l' Hr Hs. apply reaches_at_test in Hr.
    unfold step in Hs. destruct (nvals l >? 0); [|discriminate].
    pose proof (body_cases l Hr) as H. rewrite Hs in H. apply H.
  - intros passes. apply loop_no_repeat, enter_at_test.
Qed.

End Loop.

Arguments Continue {vectors}.
Arguments Return {vectors}.
Arguments Exit {vectors}.
Arguments Returned {vectors}.
Arguments Exited {vectors}.
Arguments Running {vectors}.
Arguments vecs {vectors}.
Arguments nvals {vectors}.
Arguments last_nvals {vectors}.
Arguments mkLocals {vectors}.

(** Two toy instances.  In the first the candidates are a list of nodes, a
    pass drops the first candidate as new member and, while more than two
    are left, the next one as its neighbour.  In the second (a graph with a
    self edge) no pass removes anything. *)
Definition toy_members (c : list nat) : list nat := tl c.
Definition toy_neighbors (c : list nat) : list nat :=
  if (2 <? length c)%nat then tl c else c.
Definition toy_nvals (c : list nat) : Z := Z.of_nat (length c).

Example toy_run :
  loop (list nat) toy_members toy_neighbors toy_nvals 10
       (enter (list nat) toy_nvals [1; 2; 3; 4; 5]%nat)
  = ([5; 3; 2; 1], Returned (mkLocals [] 0 1)).
Proof. reflexivity. Qed.

Example toy_stall :
  loop (list nat) (fun c => c) (fun c => c) toy_nvals 10
       (enter (list nat) toy_nvals [1; 2; 3]%nat)
  = ([3], Exited 1).
Proof. reflexivity. Qed.

(** The second toy instance stalls in its first pass. *)
Lemma stall_is_fatal_witness :
  let l := enter (list nat) toy_nvals [1; 2; 3]%nat in
  reaches (list nat) (fun c => c) (fun c => c) toy_nvals l l
  /\ stalls (list nat) (fun c => c) (fun c => c) toy_nvals l
  /\ step (list nat) (fun c => c) (fun c => c) toy_nvals l = Exit 1.
Proof.
  intros l.
  assert (Hr : reaches (list nat) (fun c => c) (fun c => c) toy_nvals l l)
    by apply reaches_start.
  assert (Hs : stalls (list nat) (fun c => c) (fun c => c) toy_nvals l).
  { unfold stalls. vm_compute. split; [reflexivity | split; [discriminate | reflexivity]]. }
  exact (conj Hr (conj Hs
    (proj1 (proj1 (stall_is_fatal (list nat) (fun c => c) (fun c => c)
                     toy_nvals [1; 2; 3]%nat) l Hr Hs)))).
Defined.

(** ** How the loop ends *)

(** Every element of the list is smaller than the one before it. *)
Fixpoint falls (counts : list Z) : Prop :=
  match counts with
  | a :: rest =>
      match rest with b :: _ => b < a | [] => True end /\ falls rest
  | [] => True
  end.

(** A toy instance whose vectors are bounded: a vector is a number of
    candidates, of which at most 100 count, and both removals take one
    candidate away. *)
Definition capped_nvals (c : nat) : Z := Z.of_nat (Nat.min c 100).

Section Progress.

Variable vectors : Type.
Variable remove_new_members : vectors -> vectors.
Variable remove_new_neighbors : vectors -> vectors.
Variable count_candidates : vectors -> Z.

Local Abbreviation run :=
  (loop vectors remove_new_members remove_new_neighbors count_candidates).
Local Abbreviation start := (enter vectors count_candidates).
Local Abbreviation counted := (GrB_Vector_nvals vectors count_candidates).
Local Abbreviation tested := (at_test vectors count_candidates).

Lemma return_cases l l' :
  tested l ->
  step vectors remove_new_members remove_new_neighbors count_candidates l
  = Return l' ->
  nvals l' = 0 /\ counted (vecs l') = 0.
Proof.
  intros (Hr & Hn & Hl). unfold step, body.
  destruct (Z.gtb_spec (nvals l) 0) as [Hpos|Hpos].
  - destruct (Z.eqb_spec (counted (remove_new_members (vecs l))) 0) as [E|E].
    + intros H. injection H as <-. cbn. auto.
    + destruct (_ =? _); discriminate.
  - intros H. injection H as <-. unfold is_size_t in Hr.
    split; [lia | rewrite <- Hn; lia].
Qed.

Lemma continue_cases l l' :
  step vectors remove_new_members remove_new_neighbors count_candidates l
  = Continue l' ->
  nvals l' = counted (remove_new_neighbors (remove_new_members (vecs l))).
Proof.
  unfold step, body. destruct (nvals l >? 0); [|discriminate].
  destruct (_ =? 0); [discriminate|].
  destruct (_ =? _); [discriminate|].
  intros H. injection H as <-. reflexivity.
Qed.

Lemma returned_empty passes : forall l counts l',
  tested l -> run passes l = (counts, Returned l') ->
  nvals l' = 0 /\ counted (vecs l') = 0.
Proof.
  induction passes as [|passes IH]; intros l counts l' Hl; cbn;
    [discriminate|].
  destruct (step _ _ _ _ l) as [l1|l1|code] eqn:Es.
  - assert (Hl1 : tested l1).
    { unfold step in Es. destruct (nvals l >? 0); [|discriminate].
      pose proof (body_cases vectors remove_new_members remove_new_neighbors
                    count_candidates l Hl) as H.
      rewrite Es in H. apply H. }
    destruct (run passes l1) as [counts1 o] eqn:E.
    intros H. injection H as _ ->. now apply (IH l1 counts1).
  - intros H. injection H as _ <-. now apply (return_cases l).
  - discriminate.
Qed.

(** When the loop is left in the ordinary way, by its test or by the
    [break], no candidate is left: [nvals] is 0, and it is the number of
    entries of [candidates]. *)
Theorem returns_without_candidates v passes counts l :
  loop vectors remove_new_members remove_new_neighbors count_candidates
       passes (enter vectors count_candidates v)
  = (counts, Returned l) ->
  nvals l = 0 /\ GrB_Vector_nvals vectors count_candidates (vecs l) = 0.
Proof. apply returned_empty, enter_at_test. Qed.

(** Every pass is entered with a positive count. *)
Lemma entered_positive fuel : forall l counts o,
  run fuel l = (counts, o) -> Forall (fun a => 0 < a) counts.
Proof.
  induction fuel as [|fuel IH]; intros l counts o; cbn [loop].
  - intros H. injection H as <- _. constructor.
  - unfold step at 1. destruct (Z.gtb_spec (nvals l) 0) as [Hp|Hp].
    + destruct (body _ _ _ _ l) as [l1|l1|code].
      * destruct (run fuel l1) as [counts1 o1] eqn:E1.
        intros H. injection H as <- _. constructor; [lia|].
        now apply (IH l1 counts1 o1).
      * intros H. injection H as <- _. repeat constructor. lia.
      * intros H. injection H as <- _. repeat constructor. lia.
    + intros H. injection H as <- _. constructor.
Qed.

(** The removals take candidates away and add none, and a vector has fewer
    than 2^64 entries. *)
Hypothesis members_shrink :
  forall v, count_candidates (remove_new_members v) <= count_candidates v.
Hypothesis neighbors_shrink :
  forall v, count_candidates (remove_new_neighbors v) <= count_candidates v.
Hypothesis counts_range : forall v, is_size_t (count_candidates v).

Lemma counted_id v : counted v = count_candidates v.
Proof. apply size_t_id, counts_range. Qed.

Lemma loop_progress fuel : forall l,
  tested l -> (Z.to_nat (nvals l) < fuel)%nat ->
  exists counts o,
    run fuel l = (counts, o)
    /\ (forall l', o <> Running l')
    /\ falls counts /\ Forall (fun a => a <= nvals l) counts.
Proof.
  induction fuel as [|fuel IH]; intros l Hl Hf; [lia|]. cbn [loop].
  destruct (step _ _ _ _ l) as [l1|l1|code] eqn:Es.
  - assert (Hb : tested l1 /\ nvals l1 <> nvals l).
    { pose proof Es as Es'. unfold step in Es'.
      destruct (nvals l >? 0); [|discriminate].
      pose proof (body_cases vectors remove_new_members remove_new_neighbors
                    count_candidates l Hl) as H.
      rewrite Es' in H. exact H. }
    destruct Hb as [Hl1 Hne].
    assert (Hle : nvals l1 <= nvals l).
    { rewrite (continue_cases l l1 Es), counted_id.
      destruct Hl as (_ & -> & _). rewrite counted_id.
      etransitivity; [apply neighbors_shrink | apply members_shrink]. }
    assert (H0 : 0 <= nvals l1) by (destruct Hl1 as (Hr & _); apply Hr).
    destruct (IH l1 Hl1 ltac:(lia)) as (counts & o & E & Ho & Hfall & Hall).
    rewrite E. exists (nvals l :: counts), o.
    split; [reflexivity|]. split; [exact Ho|]. split.
    + cbn [falls]. split; [|exact Hfall].
      destruct counts as [|b counts]; [exact I|].
      apply List.Forall_inv in Hall. lia.
    + constructor; [lia|].
      eapply List.Forall_impl; [|exact Hall]. cbn. intros a Ha. lia.
  - eexists _, _. split; [reflexivity|]. split; [discriminate|].
    destruct (nvals l >? 0); cbn; repeat constructor; lia.
  - eexists _, _. split; [reflexivity|]. split; [discriminate|].
    cbn. repeat constructor; lia.
Qed.

(** When the removals only take candidates away, the loop ends, by leaving
    the loop or by [exit (1)], after at most as many passes as there are
    candidates at the start, and every pass is entered with fewer
    candidates than the pass before it. *)
Theorem loop_terminates v :
  exists counts o,
    loop vectors remove_new_members remove_new_neighbors count_candidates
         (S (Z.to_nat (count_candidates v)))
         (enter vectors count_candidates v)
    = (counts, o)
    /\ (forall l, o <> Running l)
    /\ falls counts
    /\ (length counts <= Z.to_nat (count_candidates v))%nat.
Proof.
  destruct (loop_progress (S (Z.to_nat (count_candidates v))) (start v))
    as (counts & o & E & Ho & Hfall & Hall).
  - apply enter_at_test.
  - cbn [nvals enter]. rewrite counted_id. lia.
  - exists counts, o. split; [exact E|]. split; [exact Ho|].
    split; [exact Hfall|].
    pose proof (entered_positive _ _ _ _ E) as Hpos.
    cbn [nvals enter] in Hall. rewrite counted_id in Hall.
    clear E Ho. revert Hfall Hall Hpos.
    generalize (count_candidates v). induction counts as [|a counts IH];
      intros bound Hfall Hall Hpos; cbn [length]; [lia|].
    apply List.Forall_inv in Hall as Ha.
    apply List.Forall_inv in Hpos as Ha0.
    destruct Hfall as [Hhd Hfall]. apply List.Forall_inv_tail in Hpos.
    destruct counts as [|b counts]; [cbn; lia|].
    assert (Hb : Forall (fun c => c <= a - 1) (b :: counts)).
    { clear - Hhd Hfall. revert b Hhd Hfall.
      induction counts as [|c counts IHc]; intros b Hhd Hfall.
      - repeat constructor. lia.
      - destruct Hfall as [Hcb Hfall]. constructor; [lia|].
        apply IHc; [lia | exact Hfall]. }
    specialize (IH (a - 1) Hfall Hb Hpos). lia.
Qed.

End Progress.

Lemma loop_terminates_witness :
  (forall v, capped_nvals (Nat.pred v) <= capped_nvals v)
  /\ (forall v, is_size_t (capped_nvals v))
  /\ exists counts o,
       loop nat Nat.pred Nat.pred capped_nvals
            (S (Z.to_nat (capped_nvals 5))) (enter nat capped_nvals 5%nat)
       = (counts, o)
       /\ (length counts <= Z.to_nat (capped_nvals 5))%nat.
Proof.
  assert (H1 : forall v, capped_nvals (Nat.pred v) <= capped_nvals v)
    by (intros v; unfold capped_nvals; lia).
  assert (H2 : forall v, is_size_t (capped_nvals v)).
  { intros v. unfold capped_nvals, is_size_t.
    change (2 ^ 64) with 18446744073709551616. lia. }
  refine (conj H1 (conj H2 _)).
  destruct (loop_terminates nat Nat.pred Nat.pred capped_nvals H1 H1 H2 5%nat)
    as (counts & o & E & _ & _ & Hlen).
  exact (ex_intro _ counts (ex_intro _ o (conj E Hlen))).
Defined.

Lemma returns_without_candidates_witness :
  loop (list nat) toy_members toy_neighbors toy_nvals 10
       (enter (list nat) toy_nvals [1; 2; 3; 4; 5]%nat)
  = ([5; 3; 2; 1], Returned (mkLocals [] 0 1))
  /\ nvals (mkLocals ([] : list nat) 0 1) = 0.
Proof.
  exact (conj eq_refl
    (proj1 (returns_without_candidates (list nat) toy_members toy_neighbors
              toy_nvals [1; 2; 3; 4; 5]%nat 10 [5; 3; 2; 1]
              (mkLocals [] 0 1) eq_refl))).
Defined.

End Mis.

(* ===================================================================== *)
(** * The gbhash mexFunction *)
(* ===================================================================== *)

Module GbHash.

(** What the body inspects of a MATLAB array that holds a matrix. *)
Record mxArray : Type := mkArray {
  is_fp64 : bool ;             (* GxB_Matrix_type gives GrB_FP64 *)
  by_col : bool ;              (* GxB_FORMAT is GxB_BY_COL *)
  is_hyper : bool ;            (* GxB_IS_HYPER *)
  nrows : Z ;
  ncols : Z
}.

(** What a call can be observed to do. *)
Inductive event : Type :=
| ReadArg (i : nat)            (* pargin [i] is read *)
| Multiply                     (* myhash is called *)
| FreeShallow (i : nat)        (* GrB_Matrix_free of a shallow copy *)
| WriteOut (i : nat).          (* pargout [i] is assigned *)

Record world : Type := mkWorld {
  pargout : list (option mxArray) ;
  trace : list event
}.

Inductive result : Type :=
| Done (w : world)
| Error (msg : string) (w : world).

(** The statements of the function body, lines 33-118. *)
Inductive stmt : Type :=
| gb_usage                             (* line 33 *)
| gb_get_shallow (i : nat)             (* lines 41-42 *)
| check_type (i : nat) (msg : string)  (* lines 44-49 *)
| check_format (i : nat) (msg : string) (* lines 51-56 *)
| check_hyper (i : nat) (msg : string) (* lines 58-63 *)
| check_dims                           (* line 85 *)
| myhash                               (* lines 96-100 *)
| matrix_free (i : nat)                (* lines 106-107 *)
| gb_export.                           (* lines 113-117 *)

(** A line of the source: a statement, or a group of statements between
    [#if c] and [#endif]. *)
Inductive line : Type :=
| Plain (s : stmt)
| IfGroup (c : Z) (group : list stmt).

(** The C preprocessor keeps a group when its condition is not zero. *)
Fixpoint preprocess (src : list line) : list stmt :=
  match src with
  | [] => []
  | Plain s :: rest => s :: preprocess rest
  | IfGroup c group :: rest =>
      (if c =? 0 then [] else group) ++ preprocess rest
  end.

Definition USAGE : string := "usage: C = GrB.hash (A, B)".

Section Call.

Variables (nargout : Z) (nargin : Z) (pargin : list mxArray).

Definition log (e : event) (w : world) : world :=
  {| pargout := pargout w ; trace := trace w ++ [e] |}.

Definition check (i : nat) (bad : mxArray -> bool) (msg : string)
    (w : world) : result :=
  match pargin !! i with
  | Some a => if bad a then Error msg w else Done w
  | None => Error "invalid input" w
  end.

Definition exec_stmt (s : stmt) (w : world) : result :=
  match s with
  | gb_usage =>
      if (nargin =? 2) && (nargout <=? 1) then Done w else Error USAGE w
  | gb_get_shallow i =>
      match pargin !! i with
      | Some _ => Done (log (ReadArg i) w)
      | None => Error "invalid input" w
      end
  | check_type i msg => check i (fun a => negb (is_fp64 a)) msg w
  | check_format i msg => check i (fun a => negb (by_col a)) msg w
  | check_hyper i msg => check i is_hyper msg w
  | check_dims =>
      match pargin !! 0%nat, pargin !! 1%nat with
      | Some a, Some b =>
          if ncols a =? nrows b then Done w else Error "dimensions wrong" w
      | _, _ => Error "invalid input" w
      end
  | myhash => Done (log Multiply w)
  | matrix_free i => Done (log (FreeShallow i) w)
  | gb_export =>
      match pargin !! 0%nat with
      | Some a =>
          Done {| pargout := <[0%nat := Some a]> (pargout w) ;
                  trace := trace w ++ [WriteOut 0] |}
      | None => Error "invalid input" w
      end
  end.

Fixpoint exec (body : list stmt) (w : world) : result :=
  match body with
  | [] => Done w
  | s :: rest =>
      match exec_stmt s w with
      | Done w' => exec rest w'
      | Error msg w' => Error msg w'
      end
  end.

End Call.

(** The statements between line 28, [#if 0], and line 119, [#endif]. *)
Definition guarded : list stmt :=
  [ gb_usage ;
    gb_get_shallow 0 ; gb_get_shallow 1 ;
    check_type 0 "A must be double" ; check_type 1 "B must be double" ;
    check_format 0 "A must be CSC" ; check_format 1 "B must be CSC" ;
    check_hyper 0 "A must be standard, not hypersparse" ;
    check_hyper 1 "A must be standard, not hypersparse" ;
    check_dims ;
    myhash ;
    matrix_free 0 ; matrix_free 1 ;
    gb_export ].

(** The body of [mexFunction] as the file has it, and as it would be with
    the guard switched on. *)
Definition source : list line := [ IfGroup 0 guarded ].
Definition source_enabled : list line := [ IfGroup 1 guarded ].

Definition mexFunction (nargout : Z) (out : list (option mxArray))
    (nargin : Z) (pargin : list mxArray) : result :=
  exec nargout nargin pargin (preprocess source)
       {| pargout := out ; trace := [] |}.

Definition mexFunction_enabled (nargout : Z) (out : list (option mxArray))
    (nargin : Z) (pargin : list mxArray) : result :=
  exec nargout nargin pargin (preprocess source_enabled)
       {| pargout := out ; trace := [] |}.

(** ** Properties *)

Lemma preprocess_if_0 group rest :
  preprocess (IfGroup 0 group :: rest) = preprocess rest.
Proof. reflexivity. Qed.

(** With the guard on, the body would reject a call with three arguments
    and would multiply and assign the output for two CSC matrices. *)
Example enabled_usage :
  mexFunction_enabled 1 [None] 3 [] = Error USAGE (mkWorld [None] []).
Proof. reflexivity. Qed.

Example enabled_multiply :
  let a := mkArray true true false 2 2 in
  mexFunction_enabled 1 [None] 2 [a; a]
  = Done (mkWorld [Some a]
            [ReadArg 0; ReadArg 1; Multiply; FreeShallow 0; FreeShallow 1;
             WriteOut 0]).
Proof. reflexivity. Qed.

(** C10.  For every input the gbhash [mexFunction] does nothing: its whole
    body is between [#if 0] and [#endif], so it returns without an error,
    without reading an argument or calling anything, and with [pargout] as
    it was. *)
Theorem mexFunction_does_nothing nargout out nargin pargin :
  preprocess source = []
  /\ mexFunction nargout out nargin pargin
     = Done {| pargout := out ; trace := [] |}.
Proof. split; reflexivity. Qed.

End GbHash.

(* ===================================================================== *)
(** * GraphBLAS/private/gbselect.c *)
(* ===================================================================== *)

Module GbSelect.

Local Open Scope nat_scope.

(** What the function and the calls it makes inspect of an argument:
    whether it is a string, whether it is the empty matrix [[ ]] (for which
    gb_get_deep gives NULL), its dimensions as a matrix, and whether, as a
    descriptor, it asks for the transpose of the first input. *)
Record mxArray : Type := mkArray {
  mxIsChar : bool ;
  is_empty : bool ;
  nrows : Z ;
  ncols : Z ;
  inp0_tran : bool
}.

(** The objects that the function frees before it returns. *)
Inductive object : Type := obj_M | obj_A | obj_thunk | obj_desc.

(** What a call can be observed to do.  The functions of gb_matlab.h are
    not part of the file; a call of one of them is recorded with the index
    of the argument that it is given, and is taken to return. *)
Inductive event : Type :=
| IsChar (i : nat)                     (* mxIsChar (pargin [i]) *)
| ToDescriptor (i : nat)               (* gb_mxarray_to_descriptor *)
| ToSelectOp (i : nat)                 (* gb_mxstring_to_selectop *)
| ToBinOp (i : nat)                    (* gb_mxstring_to_binop *)
| GetShallow (i : nat)                 (* gb_get_shallow *)
| GetDeep (i : nat)                    (* gb_get_deep *)
| Here                                 (* GB_HERE *)
| MatrixNew (cnrows cncols : Z) (type_of : nat)
                                       (* GrB_Matrix_new, with the type of
                                          the accum or of A *)
| Select                               (* GxB_select *)
| Free (o : object)                    (* GrB_free *)
| Export.                              (* pargout [0] = gb_export (...) *)

(** How a call ends: it returns, it ends in [mexErrMsgTxt] with a message,
    or it reads [pargin [i]] for an [i] that is not below [nargin]. *)
Inductive result (X : Type) : Type :=
| Ok (x : X) (t : list event)
| Failed (msg : string) (t : list event)
| Beyond (i : nat) (t : list event).

Arguments Ok {X}.
Arguments Failed {X}.
Arguments Beyond {X}.

(** A computation extends the trace of events. *)
Definition M (X : Type) : Type := list event -> result X.

Definition ret {X} (x : X) : M X := fun t => Ok x t.

Definition bind {X Y} (m : M X) (f : X -> M Y) : M Y :=
  fun t => match m t with
           | Ok x t' => f x t'
           | Failed msg t' => Failed msg t'
           | Beyond i t' => Beyond i t'
           end.

Notation "x <~ m ; f" := (bind m (fun x => f))
  (at level 20, m at level 100, f at level 200, only parsing).
Notation "m ;> f" := (bind m (fun _ => f))
  (at level 20, f at level 200, only parsing).

Definition emit (e : event) : M unit := fun t => Ok tt (t ++ [e]).

(** [gb_usage (ok, msg)] ends the call with the message unless [ok]. *)
Definition gb_usage (ok : bool) (msg : string) : M unit :=
  fun t => if ok then Ok tt t else Failed msg t.

(** The arguments of GxB_select, by the index in [pargin] of the argument
    from which each one is made; [None] stands for NULL. *)
Record call : Type := mkCall {
  Cin : option nat ;
  Mask : option nat ;
  accum : option nat ;
  op : nat ;
  A : nat ;
  thunk : option nat ;
  desc : nat
}.

Definition usage_all : string :=
  "usage: Cout = gbselect (Cin, M, accum, op, A, thunk, desc)".
Definition usage_op : string :=
  "usage: Cout = gbselect (op, A, thunk, desc)".
Definition usage_accum : string :=
  "usage: Cout = gbselect (Cin, accum, op, A, thunk, desc)".
Definition usage_mask : string :=
  "usage: Cout = gbselect (Cin, M, op, A, thunk, desc)".
Definition usage_else : string :=
  "Cout = gbselect (Cin, M, accum, op, A, thunk, desc)".

Section Call.

Variable nargout : Z.
Variable pargin : list mxArray.

Definition nargin : nat := length pargin.

(** [pargin [i]]. *)
Definition arg (i : nat) : M mxArray :=
  fun t => match pargin !! i with
           | Some a => Ok a t
           | None => Beyond i t
           end.

Definition mxIsChar_at (i : nat) : M bool :=
  a <~ arg i ; emit (IsChar i) ;> ret (mxIsChar a).

(** A call of a function of gb_matlab.h on [pargin [i]]. *)
Definition convert (e : nat -> event) (i : nat) : M mxArray :=
  a <~ arg i ; emit (e i) ;> ret a.

(** [a && b] of C: [b] is evaluated only when [a] holds. *)
Definition and_then (a b : M bool) : M bool :=
  x <~ a ; if x then b else ret false.

(** [(nargin > k) ? gb_get_shallow (pargin [i]) : NULL]. *)
Definition get_thunk (k i : nat) : M (option nat) :=
  if k <? nargin then convert GetShallow i ;> ret (Some i) else ret None.

(** Lines 46-142: the arguments are found. *)
Definition find_arguments : M call :=
  gb_usage ((3 <=? nargin) && (nargin <=? 7) && (nargout <=? 1)%Z)
           usage_all ;>
  convert ToDescriptor (nargin - 1) ;>
  c0 <~ mxIsChar_at 0 ;
  if c0 then
    (* Cout = gbselect (op, A, desc), or with thunk *)
    gb_usage ((nargin =? 3) || (nargin =? 4)) usage_op ;>
    convert ToSelectOp 0 ;>
    convert GetShallow 1 ;>
    th <~ get_thunk 3 2 ;
    ret (mkCall None None None 0 1 th (nargin - 1))
  else
    c12 <~ and_then (mxIsChar_at 1) (mxIsChar_at 2) ;
    if c12 then
      (* Cout = gbselect (Cin, accum, op, A, desc), or with thunk *)
      emit Here ;>
      gb_usage ((nargin =? 5) || (nargin =? 6)) usage_accum ;>
      convert GetDeep 0 ;>
      convert ToBinOp 1 ;>
      convert ToSelectOp 2 ;>
      convert GetShallow 3 ;>
      th <~ get_thunk 5 4 ;
      ret (mkCall (Some 0) None (Some 1) 2 3 th (nargin - 1))
    else
      c23 <~ and_then (mxIsChar_at 2)
                      (c <~ mxIsChar_at 3 ; ret (negb c)) ;
      if c23 then
        (* Cout = gbselect (Cin, M, op, A, desc), or with thunk *)
        emit Here ;>
        gb_usage ((nargin =? 5) || (nargin =? 6)) usage_mask ;>
        convert GetDeep 0 ;>
        convert GetShallow 1 ;>
        convert ToSelectOp 2 ;>
        convert GetShallow 3 ;>
        th <~ get_thunk 5 4 ;
        ret (mkCall (Some 0) (Some 1) None 2 3 th (nargin - 1))
      else
        c23' <~ and_then (mxIsChar_at 2) (mxIsChar_at 3) ;
        if c23' then
          (* Cout = gbselect (Cin, M, accum, op, A, desc), or with thunk *)
          emit Here ;>
          gb_usage ((nargin =? 6) || (nargin =? 7)) usage_all ;>
          convert GetDeep 0 ;>
          convert GetShallow 1 ;>
          convert ToBinOp 2 ;>
          convert ToSelectOp 3 ;>
          convert GetShallow 4 ;>
          th <~ get_thunk 6 5 ;
          ret (mkCall (Some 0) (Some 1) (Some 2) 3 4 th (nargin - 1))
        else
          emit Here ;>
          gb_usage false usage_else ;>
          ret (mkCall None None None 0 0 None 0).

(** Lines 148-180: [C] is NULL when there is no [Cin] or [Cin] is [[ ]];
    it is then made with the dimensions of [A], exchanged when the
    descriptor transposes the first input, and with the type of the accum
    when there is one, of [A] otherwise. *)
Definition construct_C (c : call) : M unit :=
  C_is_NULL <~ match Cin c with
               | Some i => a <~ arg i ; ret (is_empty a)
               | None => ret true
               end ;
  if C_is_NULL then
    d <~ arg (desc c) ;
    a <~ arg (A c) ;
    let A_transpose := inp0_tran d in
    let cnrows := if A_transpose then ncols a else nrows a in
    let cncols := if A_transpose then nrows a else ncols a in
    emit (MatrixNew cnrows cncols
                    (match accum c with Some i => i | None => A c end))
  else ret tt.

(** Lines 186-204. *)
Definition mexFunction : M call :=
  c <~ find_arguments ;
  construct_C c ;>
  emit Select ;>
  emit (Free obj_M) ;>
  emit (Free obj_A) ;>
  emit (Free obj_thunk) ;>
  emit (Free obj_desc) ;>
  emit Export ;>
  ret c.

End Call.

(** ** The usage forms of the header of the file, lines 12-24 *)








(** ** Properties *)

Ltac args pargin :=
  destruct pargin as [|[[] ? ? ? ?] [|[[] ? ? ? ?] [|[[] ? ? ? ?]
    [|[[] ? ? ? ?] [|? [|? [|? [|? ?]]]]]]]].

(** Evaluates the call in [H] and splits on the flags that are left. *)
Ltac run_call H :=
  cbv in H;
  repeat match type of H with
         | context [match ?b with true => _ | false => _ end] =>
             is_var b; destruct b
         end.

(** The arguments of a call that returns.  The operator is a string, at
    index 0, 2 or 3; [A] is the argument after it; the descriptor is the
    last argument; between [A] and the descriptor there is nothing, or the
    thunk.  In front of the operator there is nothing, or [Cin] with the
    accum (a string) or the mask (not a string), or [Cin], the mask and
    the accum; [Cin] alone is not accepted.  There is at most one
    output. *)
Theorem accepted_roles nargout pargin c t :
  mexFunction nargout pargin [] = Ok c t ->
  (nargout <= 1)%Z
  /\ (exists a, pargin !! op c = Some a /\ mxIsChar a = true)
  /\ A c = S (op c)
  /\ desc c = length pargin - 1
  /\ (length pargin = op c + 3 /\ thunk c = None
      \/ length pargin = op c + 4 /\ thunk c = Some (op c + 2))
  /\ (op c = 0 /\ Cin c = None /\ Mask c = None /\ accum c = None
      \/ op c = 2 /\ Cin c = Some 0 /\ Mask c = None /\ accum c = Some 1
      \/ op c = 2 /\ Cin c = Some 0 /\ Mask c = Some 1 /\ accum c = None
      \/ op c = 3 /\ Cin c = Some 0 /\ Mask c = Some 1 /\ accum c = Some 2).
Proof.
  destruct (nargout <=? 1)%Z eqn:E.
  - intros H. unfold mexFunction, find_arguments, nargin in H.
    rewrite E in H. apply Z.leb_le in E. rename E into Hout.
    args pargin; run_call H; try discriminate H;
      inversion H; subst; clear H; cbn;
      (split; [exact Hout|]); (split; [eexists; split; reflexivity|]);
      repeat split; auto 10.
  - intros H. unfold mexFunction, find_arguments, nargin in H.
    rewrite E, !andb_false_r in H. discriminate H.
Qed.


(** The only calls in which an argument is read that was not given are
    those with three arguments of which the last is a string and the first
    two are not: [pargin [3]] is then read, by the test of line 97. *)
Theorem reads_beyond_arguments nargout pargin i :
  (exists t, mexFunction nargout pargin [] = Beyond i t)
  <-> (nargout <= 1)%Z /\ i = 3
      /\ exists a0 a1 a2,
           pargin = [a0; a1; a2]
           /\ mxIsChar a0 = false /\ mxIsChar a1 = false
           /\ mxIsChar a2 = true.
Proof.
  split.
  - intros [t H]. destruct (nargout <=? 1)%Z eqn:E.
    + unfold mexFunction, find_arguments, nargin in H.
      rewrite E in H. apply Z.leb_le in E.
      args pargin; run_call H; try discriminate H;
        inversion H; subst; clear H;
        (split; [exact E|]); (split; [reflexivity|]);
        eexists _, _, _; repeat split.
    + unfold mexFunction, find_arguments, nargin in H.
      rewrite E, !andb_false_r in H. discriminate H.
  - intros (Hout & -> & a0 & a1 & a2 & -> & H0 & H1 & H2).
    apply Z.leb_le in Hout.
    unfold mexFunction, find_arguments, nargin. rewrite Hout.
    destruct a0, a1, a2. cbn in H0, H1, H2. subst.
    eexists. reflexivity.
Qed.

(** A call that ends with an error message has not called GxB_select and
    has not assigned [pargout [0]].  The message is the usage text of the
    form that the strings among the first four arguments select, given
    when the number of arguments does not fit that form; the general usage
    text, given also when there are fewer than three or more than seven
    arguments or more than one output, before any argument is looked at;
    or the text of the last branch, when the strings select no form. *)
Theorem usage_errors nargout pargin msg t :
  mexFunction nargout pargin [] = Failed msg t ->
  ~ In Select t /\ ~ In Export t
  /\ (msg = usage_all /\ (t = [] \/ length pargin <> 6 /\ length pargin <> 7)
      \/ msg = usage_op /\ length pargin <> 3 /\ length pargin <> 4
      \/ msg = usage_accum /\ length pargin <> 5 /\ length pargin <> 6
      \/ msg = usage_mask /\ length pargin <> 5 /\ length pargin <> 6
      \/ msg = usage_else).
Proof.
  intros H. unfold mexFunction, find_arguments, nargin in H.
  destruct (nargout <=? 1)%Z eqn:E.
  - args pargin; run_call H; try discriminate H;
      inversion H; subst; clear H; cbn;
      (split; [intuition discriminate|]);
      (split; [intuition discriminate|]); auto 10.
  - rewrite !andb_false_r in H. cbv in H. inversion H; subst.
    cbn. auto 10.
Qed.

Definition a_string : mxArray := mkArray true false 0 0 false.
Definition a_matrix : mxArray := mkArray false false 3 2 false.
Definition a_descriptor : mxArray := mkArray false false 0 0 true.

(** [gbselect (op, A, desc)] with a descriptor that transposes [A]. *)
Lemma accepted_roles_witness :
  mexFunction 1 [a_string; a_matrix; a_descriptor] []
  = Ok (mkCall None None None 0 1 None 2)
       [ToDescriptor 2; IsChar 0; ToSelectOp 0; GetShallow 1;
        MatrixNew 2 3 1; Select; Free obj_M; Free obj_A; Free obj_thunk;
        Free obj_desc; Export]
  /\ A (mkCall None None None 0 1 None 2) = 1.
Proof.
  exact (conj eq_refl
    (proj1 (proj2 (proj2
       (accepted_roles 1 [a_string; a_matrix; a_descriptor] _ _ eq_refl))))).
Defined.


(** [gbselect (Cin, op, A, desc)]: [Cin] alone in front of the operator. *)
Lemma usage_errors_witness :
  mexFunction 1 [a_matrix; a_string; a_matrix; a_descriptor] []
  = Failed usage_else [ToDescriptor 3; IsChar 0; IsChar 1; IsChar 2; IsChar 2;
                       IsChar 2; Here]
  /\ ~ In Select [ToDescriptor 3; IsChar 0; IsChar 1; IsChar 2; IsChar 2;
                  IsChar 2; Here].
Proof.
  exact (conj eq_refl
    (proj1 (usage_errors 1 [a_matrix; a_string; a_matrix; a_descriptor]
              _ _ eq_refl))).
Defined.

(** [gbselect (A, thunk, 'tril')]: three arguments, the last a string. *)
Lemma reads_beyond_arguments_witness :
  (1 <= 1)%Z
  /\ exists t, mexFunction 1 [a_matrix; a_matrix; a_string] [] = Beyond 3 t.
Proof.
  assert (H : (1 <= 1)%Z) by lia.
  exact (conj H
    (proj2 (reads_beyond_arguments 1 [a_matrix; a_matrix; a_string] 3)
       (conj H (conj eq_refl
          (ex_intro _ a_matrix (ex_intro _ a_matrix (ex_intro _ a_string
             (conj eq_refl (conj eq_refl (conj eq_refl eq_refl)))))))))).
Defined.

End GbSelect.

(* ===================================================================== *)
(** * The kernels: dot product, saxpy, reduction *)
(* ===================================================================== *)

Module Kernels.
Import CInt.

Local Open Scope nat_scope.

(** A sparse vector: the (index, value) pairs of one vector of a matrix,
    that is [Vi [p], Vx [p]] for [Vp [k] <= p < Vp [k+1]], in storage
    order. *)
Definition svec (T : Type) : Type := list (nat * T).

(** The indices are strictly increasing and at least [lo]. *)
Fixpoint ascending {T} (lo : nat) (v : svec T) : bool :=
  match v with
  | [] => true
  | (i, _) :: rest => (lo <=? i) && ascending (S i) rest
  end.

(** All indices are below [n]. *)
Definition below {T} (n : nat) (v : svec T) : bool :=
  forallb (fun e => fst e <? n) v.

(** The value stored at index [k], if any. *)
Fixpoint entry {T} (k : nat) (v : svec T) : option T :=
  match v with
  | [] => None
  | (i, x) :: rest => if i =? k then Some x else entry k rest
  end.

Section Monoid.

(** The monoid of a semiring: [fadd] and the optional terminal value.
    [same] is the comparison [memcmp (cij, terminal, csize) == 0] of the
    generic kernel, [cij == terminal] of a built-in one. *)
Variable TC : Type.
Variable add : TC -> TC -> TC.
Variable same : TC -> TC -> bool.

(** [GB_DOT_TERMINAL (cij)] and [GB_REDUCE_TERMINAL (s)]: the test before
    the [break]. *)
Definition at_terminal (terminal : option TC) (c : TC) : bool :=
  match terminal with
  | Some t => same c t
  | None => false
  end.

(** [GB_MULT] for the first product of a dot product, [GB_MULTADD] for
    the later ones. *)
Definition accum (cij : option TC) (t : TC) : TC :=
  match cij with
  | None => t
  | Some c => add c t
  end.

(** Modelled from the spec: the loop of GB_reduce_to_scalar_template.c,
    which is not under src/.  The accumulator starts at the identity, takes
    the entries in order, and the scan stops once the accumulator equals
    the terminal value. *)
Fixpoint reduce_loop (terminal : option TC) (s : TC) (Ax : list TC) : TC :=
  match Ax with
  | [] => s
  | x :: rest =>
      let s' := add s x in
      if at_terminal terminal s' then s' else reduce_loop terminal s' rest
  end.

Section Multiply.

Variables TA TB : Type.
Variable mult : TA -> TB -> TC.

(** Modelled from the spec: the loop of GB_AxB_dot_cij.c, which is not
    under src/.  The dot product of [A(:,i)] and [B(:,j)] walks the merge
    of the two index lists; at a common index it multiplies and
    accumulates, and it stops as soon as the accumulator equals the
    terminal value.  The result is [None] when the patterns do not meet
    (no entry [C(i,j)]). *)
Fixpoint dot_cij (terminal : option TC) (a : svec TA) (b : svec TB)
    (cij : option TC) {struct a} : option TC :=
  let fix scan_b (b : svec TB) (cij : option TC) {struct b} : option TC :=
    match a, b with
    | [], _ => cij
    | _, [] => cij
    | (ia, aki) :: a', (ib, bkj) :: b' =>
        if ia <? ib then dot_cij terminal a' b cij          (* pA++ *)
        else if ib <? ia then scan_b b' cij                 (* pB++ *)
        else
          let c := accum cij (mult aki bkj) in
          if at_terminal terminal c then Some c             (* break *)
          else dot_cij terminal a' b' (Some c)              (* pA++, pB++ *)
    end
  in scan_b b cij.

(** The products [A(k,i) * B(k,j)] over the common indices [k], in the
    order of [B(:,j)]. *)
Definition products (a : svec TA) (b : svec TB) : list TC :=
  flat_map (fun e => match entry (fst e) a with
                     | Some aki => [mult aki (snd e)]
                     | None => []
                     end) b.

(** The accumulation of a list of products, without any early exit. *)
Definition accum_all (cij : option TC) (ts : list TC) : option TC :=
  fold_left (fun c t => Some (accum c t)) ts cij.

End Multiply.

(** The terminal value absorbs: once the accumulator holds it, adding
    anything leaves it. *)
Definition absorbing (terminal : option TC) : Prop :=
  forall t, terminal = Some t -> forall x, add t x = t.

(** The comparison decides equality with the terminal value. *)
Definition same_is_eq : Prop := forall x y, same x y = true -> x = y.

End Monoid.

Arguments at_terminal {TC}.
Arguments accum {TC}.
Arguments reduce_loop {TC}.
Arguments dot_cij {TC} add same {TA TB}.
Arguments products {TC TA TB}.
Arguments accum_all {TC}.
Arguments absorbing {TC}.
Arguments same_is_eq {TC}.

(** Phase 1 of the dot product ("symbolic"): do the patterns of [A(:,i)]
    and [B(:,j)] meet?  No value is read. *)
Fixpoint meets {TA TB} (a : svec TA) (b : svec TB) {struct a} : bool :=
  let fix scan_b (b : svec TB) {struct b} : bool :=
    match a, b with
    | [], _ => false
    | _, [] => false
    | (ia, _) :: a', (ib, _) :: b' =>
        if ia <? ib then meets a' b
        else if ib <? ia then scan_b b'
        else true
    end
  in scan_b b.

(** The vectors of a matrix with their indices: [(k, A(:,k))]. *)
Definition enumerate {T} (A : list T) : list (nat * T) :=
  combine (seq 0 (length A)) A.

(** A matrix held by column, seen by row: vector [i] of the result lists
    the entries [(k, A(i,k))] of row [i], by increasing [k]. *)
Definition transpose {T} (m : nat) (A : list (svec T)) : list (svec T) :=
  map (fun i =>
         flat_map (fun ka => match entry i (snd ka) with
                             | Some x => [(fst ka, x)]
                             | None => []
                             end) (enumerate A))
      (seq 0 m).

(** ** Masks *)

(** The mask [M] by vector, its values already cast to [bool]. *)
Definition mask : Type := list (svec bool).

(** [M(i,j)] as the kernels read it: an entry that is absent counts as
    false; with [Mask_struct] any entry that is present counts as true. *)
Definition mask_entry (Mask_struct : bool) (M : mask) (i j : nat) : bool :=
  match M !! j with
  | Some m => match entry i m with
              | Some mij => Mask_struct || mij
              | None => false
              end
  | None => false
  end.

(** The positions that a call with mask [M] computes: all of them without
    a mask, those where [M(i,j)] holds for [C<M>], the others for
    [C<!M>]. *)
Definition mask_selection (M : option mask) (Mask_comp Mask_struct : bool)
    (i j : nat) : bool :=
  match M with
  | None => true
  | Some M => xorb Mask_comp (mask_entry Mask_struct M i j)
  end.

Section Semiring.

Context {TA TB TC : Type}.
Variable add : TC -> TC -> TC.
Variable same : TC -> TC -> bool.
Variable mult : TA -> TB -> TC.
Variable terminal : option TC.

(** ** The dot-product method *)

(** Modelled from the spec: GB_AxB_dot2_count and the phase-1 pass of the
    dot-product template, which are not under src/.  For one vector
    [B(:,j)] the pass counts the vectors [A(:,i)] of the slice that the
    mask selects and whose pattern meets that of [B(:,j)]. *)
Definition dot2_count (sel : nat -> bool) (Aslice : list (nat * svec TA))
    (b : svec TB) : nat :=
  length (List.filter (fun e => sel (fst e) && meets (snd e) b) Aslice).

(** Modelled from the spec: the phase-2 pass of the dot-product template,
    which is not under src/.  The same walk as phase 1, now computing each
    dot product; the result is the list of entries [(i, C(i,j))] that the
    thread appends for this vector. *)
Definition dot2_fill (sel : nat -> bool) (Aslice : list (nat * svec TA))
    (b : svec TB) : svec TC :=
  flat_map (fun e =>
              if sel (fst e) then
                match dot_cij add same mult terminal (snd e) b None with
                | Some cij => [(fst e, cij)]
                | None => []
                end
              else []) Aslice.

(** Modelled from the spec: GB_AxB_dot3_template.c, which is not under
    src/.  [C<M>=A'*B] walks the entries of [M(:,j)]; where the mask
    holds and the dot product exists the entry is computed, every other
    position of the pattern becomes a zombie ([None]). *)
Definition dot3_vector (Mask_struct : bool) (m : svec bool)
    (A : list (svec TA)) (b : svec TB) : list (nat * option TC) :=
  map (fun e =>
         (fst e,
          if Mask_struct || snd e then
            match A !! fst e with
            | Some a => dot_cij add same mult terminal a b None
            | None => None
            end
          else None)) m.


(** ** The saxpy method *)

(** Gustavson's dense workspace: one slot per row, [None] while the row
    has not been touched. *)
Definition scatter (H : list (option TC)) (i : nat) (t : TC)
    : list (option TC) :=
  <[i := Some (accum add (H !! i ≫= id) t)]> H.

(** The hash table, by its contents: the rows in the order in which they
    were first inserted, each with its accumulated value. *)
Fixpoint hash_update (table : svec TC) (i : nat) (t : TC) : svec TC :=
  match table with
  | [] => [(i, t)]
  | (i', h) :: rest =>
      if i' =? i then (i', add h t) :: rest
      else (i', h) :: hash_update rest i t
  end.

(** Modelled from the spec: the scatter-accumulate of
    GB_AxB_saxpy3_template.c, which is not under src/.  For each entry
    [B(k,j)], each [A(i,k) * B(k,j)] is added into the accumulator. *)
Definition saxpy_scatter {W} (update : W -> nat -> TC -> W)
    (A : list (svec TA)) (b : svec TB) (w : W) : W :=
  fold_left (fun w e =>
               match A !! fst e with
               | Some a =>
                   fold_left (fun w e' =>
                                update w (fst e') (mult (snd e') (snd e)))
                             a w
               | None => w
               end) b w.

(** The dense workspace is gathered by increasing row. *)
Definition gather (H : list (option TC)) : svec TC :=
  flat_map (fun e => match snd e with
                     | Some c => [(fst e, c)]
                     | None => []
                     end) (enumerate H).

(** The rows of the hash table are sorted before they are written. *)
Fixpoint insert_sorted (e : nat * TC) (v : svec TC) : svec TC :=
  match v with
  | [] => [e]
  | e' :: rest =>
      if fst e <? fst e' then e :: e' :: rest
      else e' :: insert_sorted e rest
  end.

Definition sort_rows (v : svec TC) : svec TC :=
  fold_right insert_sorted [] v.

(** [C(:,j)] by the saxpy method, with the accumulator chosen for this
    vector. *)
Definition saxpy3_vector (use_hash : bool) (cvlen : nat)
    (A : list (svec TA)) (b : svec TB) : svec TC :=
  if use_hash
  then sort_rows (saxpy_scatter hash_update A b [])
  else gather (saxpy_scatter scatter A b (replicate cvlen None)).

End Semiring.

(** The vector with entry [f i] at every index [i < n] where [f i] is
    defined. *)
Definition tabulate_from {T} (f : nat -> option T) (s n : nat) : svec T :=
  flat_map (fun i => match f i with
                     | Some x => [(i, x)]
                     | None => []
                     end) (seq s n).

Definition tabulate {T} (f : nat -> option T) (n : nat) : svec T :=
  tabulate_from f 0 n.

(** [A(i,k)] of a matrix held by column. *)
Definition at_row {T} (A : list (svec T)) (i k : nat) : option T :=
  A !! k ≫= entry i.

(** The products [A(i,k) * B(k,j)] that contribute to [C(i,j)], in the
    order of [B(:,j)]. *)
Definition row_products {TA TB TC} (mult : TA -> TB -> TC)
    (A : list (svec TA)) (i : nat) (b : svec TB) : list TC :=
  flat_map (fun e => match at_row A i (fst e) with
                     | Some aik => [mult aik (snd e)]
                     | None => []
                     end) b.

(** Every vector of the matrix is ascending with indices below [m]. *)
Definition well_formed {T} (m : nat) (A : list (svec T)) : bool :=
  forallb (fun a => ascending 0 a && below m a) A.

(** ** The dot product and the reduction with and without early exit *)

Section MonoidFacts.

Context {TC : Type} (add : TC -> TC -> TC) (same : TC -> TC -> bool).

Lemma reduce_loop_full s Ax :
  reduce_loop add same None s Ax = fold_left add Ax s.
Proof. revert s. induction Ax as [|x Ax IH]; intros s; cbn; auto. Qed.

Lemma fold_left_absorbed t Ax :
  (forall x, add t x = t) -> fold_left add Ax t = t.
Proof. intros H. induction Ax as [|x Ax IH]; cbn; [reflexivity|]. now rewrite H. Qed.

Lemma at_terminal_eq terminal c :
  same_is_eq same -> at_terminal same terminal c = true -> terminal = Some c.
Proof.
  intros Hs. destruct terminal as [t|]; cbn; [|discriminate].
  intros H. apply Hs in H. now subst.
Qed.

(** The reduction loop with early exit computes the full fold. *)
Lemma reduce_loop_terminal terminal s Ax :
  same_is_eq same -> absorbing add terminal ->
  reduce_loop add same terminal s Ax = fold_left add Ax s.
Proof.
  intros Hs Habs. revert s. induction Ax as [|x Ax IH]; intros s; cbn; auto.
  destruct (at_terminal same terminal (add s x)) eqn:E; [|apply IH].
  apply (at_terminal_eq _ _ Hs) in E.
  symmetry. apply fold_left_absorbed. now apply Habs.
Qed.

Context {TA TB : Type} (mult : TA -> TB -> TC).

(** One unfolding of the merge loop. *)
Lemma dot_cij_cons terminal ia aki a ib bkj b cij :
  dot_cij add same mult terminal ((ia, aki) :: a) ((ib, bkj) :: b) cij =
    if ia <? ib then dot_cij add same mult terminal a ((ib, bkj) :: b) cij
    else if ib <? ia then dot_cij add same mult terminal ((ia, aki) :: a) b cij
    else
      let c := accum add cij (mult aki bkj) in
      if at_terminal same terminal c then Some c
      else dot_cij add same mult terminal a b (Some c).
Proof. reflexivity. Qed.

Lemma dot_cij_nil_r terminal a cij :
  dot_cij add same mult terminal a [] cij = cij.
Proof. destruct a as [|[ia aki] a]; reflexivity. Qed.

Lemma dot_cij_nil_l terminal b cij :
  dot_cij add same mult terminal [] b cij = cij.
Proof. destruct b; reflexivity. Qed.

(** An induction principle that follows the merge loop. *)
Lemma merge_ind (P : svec TA -> svec TB -> Prop) :
  (forall b, P [] b) ->
  (forall a, P a []) ->
  (forall ia aki a ib bkj b,
      (ia < ib -> P a ((ib, bkj) :: b)) ->
      (ib < ia -> P ((ia, aki) :: a) b) ->
      (ia = ib -> P a b) ->
      P ((ia, aki) :: a) ((ib, bkj) :: b)) ->
  forall a b, P a b.
Proof.
  intros Hl Hr Hc. induction a as [|[ia aki] a IHa]; [exact Hl|].
  induction b as [|[ib bkj] b IHb]; [apply Hr|].
  apply Hc; intros; auto.
Qed.

(** Once the accumulator holds an absorbing terminal value, the full scan
    leaves it there. *)
Lemma dot_cij_absorbed t a b :
  (forall x, add t x = t) ->
  dot_cij add same mult None a b (Some t) = Some t.
Proof.
  intros H. revert a b. apply (merge_ind (fun a b => _ a b _ = _)).
  - intros b. apply dot_cij_nil_l.
  - intros a. apply dot_cij_nil_r.
  - intros ia aki a ib bkj b H1 H2 H3. rewrite dot_cij_cons.
    destruct (Nat.ltb_spec ia ib); [auto|].
    destruct (Nat.ltb_spec ib ia); [auto|].
    cbn. rewrite H. apply H3. lia.
Qed.

(** The dot product with early exit computes what the full scan does. *)
Lemma dot_cij_terminal terminal a b cij :
  same_is_eq same -> absorbing add terminal ->
  dot_cij add same mult terminal a b cij = dot_cij add same mult None a b cij.
Proof.
  intros Hs Habs. revert a b cij.
  apply (merge_ind (fun a b => forall cij, _ a b cij = _ a b cij)).
  - intros b cij. now rewrite !dot_cij_nil_l.
  - intros a cij. now rewrite !dot_cij_nil_r.
  - intros ia aki a ib bkj b H1 H2 H3 cij. rewrite !dot_cij_cons.
    destruct (Nat.ltb_spec ia ib); [auto|].
    destruct (Nat.ltb_spec ib ia); [auto|].
    cbv zeta. cbn [at_terminal].
    destruct (at_terminal same terminal (accum add cij (mult aki bkj))) eqn:E;
      [|apply H3; lia].
    apply (at_terminal_eq _ _ Hs) in E.
    symmetry. apply dot_cij_absorbed. now apply Habs.
Qed.

End MonoidFacts.

(** ** Built-in semirings and monoids *)

(** The semiring of the generated file for [lor_first_bool]:
    [GB_MULT (z, x, y)] is [z = x], [GB_MULTADD (z, x, y)] is [z |= x], the
    identity is [false] and [GB_DOT_TERMINAL (cij)] is
    [if (cij == true) break]. *)
Module LorFirstBool.

Definition GB_MULT (x y : bool) : bool := x.
Definition GB_ADD (z t : bool) : bool := z || t.
Definition GB_IDENTITY : bool := false.
Definition GB_TERMINAL : option bool := Some true.
Definition GB_SAME (cij t : bool) : bool := Bool.eqb cij t.

(** The kernels of the file, for one vector of [B]. *)
Definition GB_Adot2B__lor_first_bool (sel : nat -> bool)
    (Aslice : list (nat * svec bool)) (b : svec bool) : svec bool :=
  dot2_fill GB_ADD GB_SAME GB_MULT GB_TERMINAL sel Aslice b.

Definition GB_Adot3B__lor_first_bool (Mask_struct : bool) (m : svec bool)
    (A : list (svec bool)) (b : svec bool) : list (nat * option bool) :=
  dot3_vector GB_ADD GB_SAME GB_MULT GB_TERMINAL Mask_struct m A b.

Definition GB_Asaxpy3B__lor_first_bool (use_hash : bool) (cvlen : nat)
    (A : list (svec bool)) (b : svec bool) : svec bool :=
  saxpy3_vector GB_ADD GB_MULT use_hash cvlen A b.

End LorFirstBool.

(** The monoid of Generated/GB_red__max_int8.c: [GB_REDUCE (t, Ax, p)] is
    [t = GB_IMAX (t, Ax [p])], the identity is [INT8_MIN], and
    [GB_REDUCE_TERMINAL (t)] is [if (s == INT8_MAX) break], a test of the
    variable [s] whatever the argument. *)
Module MaxInt8.

Definition GB_IDENTITY : Z := INT8_MIN.
Definition GB_REDUCE (t x : Z) : Z := GB_IMAX t x.
Definition GB_REDUCE_TERMINAL (s t : Z) : bool := (s =? INT8_MAX)%Z.

(** Modelled from the spec: the loops of GB_reduce_to_scalar_template.c,
    which is not under src/.  With one thread the entries are reduced into
    [s] itself; otherwise every thread reduces its part of [Ax] into a
    scalar [t] of its own, starting from the identity, and the results
    [w [tid]] are then reduced into [s]. *)
Fixpoint reduce_into_s (s : Z) (Ax : list Z) : Z :=
  match Ax with
  | [] => s
  | x :: rest =>
      let s' := GB_REDUCE s x in
      if GB_REDUCE_TERMINAL s' s' then s' else reduce_into_s s' rest
  end.

Fixpoint reduce_into_t (s t : Z) (Ax : list Z) : Z :=
  match Ax with
  | [] => t
  | x :: rest =>
      let t' := GB_REDUCE t x in
      if GB_REDUCE_TERMINAL s t' then t' else reduce_into_t s t' rest
  end.

(** [parts] is [Ax] as the threads divide it: one part per thread. *)
Definition GB_red_scalar__max_int8 (parts : list (list Z)) (nthreads : Z)
    : Z :=
  let s := GB_IDENTITY in
  if (nthreads =? 1)%Z then reduce_into_s s (concat parts)
  else
    let w := map (reduce_into_t s GB_IDENTITY) parts in
    fold_left (fun s wt => GB_IMAX s wt) w s.

End MaxInt8.

(** The arithmetic semiring over the integers, for the scenarios. *)
Module PlusTimes.

Definition dot2 (Aslice : list (nat * svec Z)) (b : svec Z) : svec Z :=
  dot2_fill Z.add Z.eqb Z.mul None (fun _ => true) Aslice b.

Definition saxpy3 (use_hash : bool) (cvlen : nat) (A : list (svec Z))
    (b : svec Z) : svec Z :=
  saxpy3_vector Z.add Z.mul use_hash cvlen A b.

End PlusTimes.

(** ** Lists *)

Lemma flat_map_ext_in {X Y} (f g : X -> list Y) l :
  (forall x, In x l -> f x = g x) -> flat_map f l = flat_map g l.
Proof.
  induction l as [|x l IH]; intros H; cbn; [reflexivity|].
  rewrite (H x) by now left. f_equal. apply IH. intros y Hy. apply H. now right.
Qed.

Lemma flat_map_enumerate_from {X Y} (f : nat * X -> list Y) (l : list X) s :
  flat_map f (combine (seq s (length l)) l)
  = flat_map (fun i => match l !! (i - s) with
                       | Some x => f (i, x)
                       | None => []
                       end) (seq s (length l)).
Proof.
  revert s. induction l as [|x l IH]; intros s; cbn [length seq combine flat_map].
  - reflexivity.
  - rewrite Nat.sub_diag. cbn [lookup list_lookup]. f_equal.
    rewrite IH. apply flat_map_ext_in. intros i Hi. apply in_seq in Hi.
    replace (i - s) with (S (i - S s)) by lia. reflexivity.
Qed.

Lemma flat_map_enumerate {X Y} (f : nat * X -> list Y) (l : list X) :
  flat_map f (enumerate l)
  = flat_map (fun i => match l !! i with
                       | Some x => f (i, x)
                       | None => []
                       end) (seq 0 (length l)).
Proof.
  unfold enumerate. rewrite flat_map_enumerate_from.
  apply flat_map_ext_in. intros i _. now rewrite Nat.sub_0_r.
Qed.

(** ** Sparse vectors *)

Section VectorFacts.

Context {T : Type}.

Lemma ascending_cons lo i (x : T) v :
  ascending lo ((i, x) :: v) = true <-> lo <= i /\ ascending (S i) v = true.
Proof. cbn. rewrite andb_true_iff, Nat.leb_le. tauto. Qed.

Lemma ascending_weaken lo lo' (v : svec T) :
  lo' <= lo -> ascending lo v = true -> ascending lo' v = true.
Proof.
  destruct v as [|[i x] v]; [reflexivity|].
  rewrite !ascending_cons. intros H [H1 H2]. split; [lia | exact H2].
Qed.

Lemma ascending_ge lo (v : svec T) e :
  ascending lo v = true -> In e v -> lo <= fst e.
Proof.
  revert lo. induction v as [|[i x] v IH]; intros lo; [contradiction|].
  rewrite ascending_cons. intros [H1 H2] [<-|Hin]; [exact H1|].
  specialize (IH _ H2 Hin). lia.
Qed.

Lemma entry_below_lo lo k (v : svec T) :
  ascending lo v = true -> k < lo -> entry k v = None.
Proof.
  revert lo. induction v as [|[i x] v IH]; intros lo; [reflexivity|].
  rewrite ascending_cons. intros [H1 H2] Hk. cbn.
  destruct (Nat.eqb_spec i k); [lia|]. apply (IH (S i)); [exact H2 | lia].
Qed.

Lemma entry_In k (v : svec T) x : entry k v = Some x -> In (k, x) v.
Proof.
  induction v as [|[i y] v IH]; cbn; [discriminate|].
  destruct (Nat.eqb_spec i k) as [->|]; [intros [= ->]; now left|].
  intros H. right. auto.
Qed.

Lemma In_entry lo k (v : svec T) x :
  ascending lo v = true -> In (k, x) v -> entry k v = Some x.
Proof.
  revert lo. induction v as [|[i y] v IH]; intros lo; [contradiction|].
  rewrite ascending_cons. intros [H1 H2] [[= -> ->]|Hin]; cbn.
  - now rewrite Nat.eqb_refl.
  - destruct (Nat.eqb_spec i k) as [->|]; [|eauto].
    apply (ascending_ge _ _ _ H2) in Hin. cbn in Hin. lia.
Qed.

(** Two ascending vectors with the same entries are the same list. *)
Lemma ascending_ext lo (v w : svec T) :
  ascending lo v = true -> ascending lo w = true ->
  (forall k, entry k v = entry k w) -> v = w.
Proof.
  revert lo w. induction v as [|[i x] v IH]; intros lo [|[j y] w] Hv Hw He.
  - reflexivity.
  - specialize (He j). cbn in He. now rewrite Nat.eqb_refl in He.
  - specialize (He i). cbn in He. now rewrite Nat.eqb_refl in He.
  - apply ascending_cons in Hv as [Hv1 Hv2].
    apply ascending_cons in Hw as [Hw1 Hw2].
    assert (i = j) as <-.
    { pose proof (He i) as Hi. pose proof (He j) as Hj. cbn in Hi, Hj.
      rewrite Nat.eqb_refl in Hi, Hj.
      destruct (Nat.eqb_spec j i) as [|Hne]; [auto|].
      destruct (Nat.eqb_spec i j) as [|_]; [auto|].
      destruct (Nat.lt_ge_cases i j).
      - rewrite (entry_below_lo (S j) i w) in Hi; [discriminate | auto | lia].
      - rewrite (entry_below_lo (S i) j v) in Hj; [discriminate | auto | lia]. }
    pose proof (He i) as Hi. cbn in Hi. rewrite Nat.eqb_refl in Hi.
    injection Hi as ->. f_equal.
    apply (IH (S i)); auto.
    intros k. specialize (He k). cbn in He.
    destruct (Nat.eqb_spec i k) as [E|]; [subst k|exact He].
    rewrite (entry_below_lo (S i) i v), (entry_below_lo (S i) i w); auto.
Qed.

Lemma tabulate_from_S (f : nat -> option T) s n :
  tabulate_from f s (S n)
  = match f s with Some x => [(s, x)] | None => [] end
    ++ tabulate_from f (S s) n.
Proof. reflexivity. Qed.

Lemma ascending_tabulate_from (f : nat -> option T) s n :
  ascending s (tabulate_from f s n) = true.
Proof.
  revert s. induction n as [|n IH]; intros s; [reflexivity|].
  rewrite tabulate_from_S. destruct (f s) as [x|]; cbn [app].
  - apply ascending_cons. split; [lia | apply IH].
  - apply (ascending_weaken (S s)); [lia | apply IH].
Qed.

Lemma entry_tabulate_from (f : nat -> option T) s n k :
  entry k (tabulate_from f s n)
  = if (s <=? k) && (k <? s + n) then f k else None.
Proof.
  revert s. induction n as [|n IH]; intros s.
  - replace ((s <=? k) && (k <? s + 0)) with false; [reflexivity|].
    symmetry. apply andb_false_iff. destruct (Nat.leb_spec s k);
      [right; apply Nat.ltb_ge; lia | now left].
  - rewrite tabulate_from_S.
    assert (Hrest : entry k (tabulate_from f (S s) n)
                    = if (S s <=? k) && (k <? s + S n) then f k else None).
    { rewrite IH. now replace (S s + n) with (s + S n) by lia. }
    destruct (Nat.eq_dec s k) as [->|Hne].
    + replace ((k <=? k) && (k <? k + S n)) with true
        by (symmetry; apply andb_true_iff; split;
            [apply Nat.leb_le | apply Nat.ltb_lt]; lia).
      destruct (f k) as [x|]; cbn [app entry].
      * now rewrite Nat.eqb_refl.
      * rewrite Hrest. destruct (Nat.leb_spec (S k) k); [lia | reflexivity].
    + assert (E : entry k (match f s with Some x => [(s, x)] | None => [] end
                           ++ tabulate_from f (S s) n)
                  = entry k (tabulate_from f (S s) n)).
      { destruct (f s); cbn [app entry]; [|reflexivity].
        destruct (Nat.eqb_spec s k); [contradiction | reflexivity]. }
      rewrite E, Hrest.
      destruct (Nat.leb_spec (S s) k), (Nat.leb_spec s k);
        cbn; try reflexivity; lia.
Qed.

Lemma entry_tabulate (f : nat -> option T) n k :
  entry k (tabulate f n) = if k <? n then f k else None.
Proof. unfold tabulate. now rewrite entry_tabulate_from. Qed.

(** *** Sorting the rows of a hash table *)

(** No row occurs twice. *)
Fixpoint distinct_rows (v : svec T) : Prop :=
  match v with
  | [] => True
  | (i, _) :: rest => entry i rest = None /\ distinct_rows rest
  end.

Lemma entry_insert_sorted e (v : svec T) k :
  entry (fst e) v = None ->
  entry k (insert_sorted e v)
  = if fst e =? k then Some (snd e) else entry k v.
Proof.
  destruct e as [i x]. cbn [fst snd].
  induction v as [|[j y] v IH]; cbn [insert_sorted entry fst]; [reflexivity|].
  destruct (Nat.eqb_spec j i) as [->|Hji]; [discriminate|]. intros Hv.
  destruct (Nat.ltb_spec i j); cbn [entry]; [reflexivity|].
  rewrite (IH Hv).
  destruct (Nat.eqb_spec j k), (Nat.eqb_spec i k); try reflexivity; lia.
Qed.

Lemma ascending_insert_sorted lo e (v : svec T) :
  ascending lo v = true -> entry (fst e) v = None ->
  ascending (Nat.min lo (fst e)) (insert_sorted e v) = true.
Proof.
  destruct e as [i x]. cbn [fst].
  revert lo. induction v as [|[j y] v IH]; intros lo Hv He.
  - cbn. rewrite andb_true_r. apply Nat.leb_le. lia.
  - apply ascending_cons in Hv as [Hv1 Hv2]. cbn [entry] in He.
    destruct (Nat.eqb_spec j i) as [|Hji]; [discriminate|].
    cbn [insert_sorted fst].
    destruct (Nat.ltb_spec i j).
    + apply ascending_cons. split; [lia|].
      apply ascending_cons. split; [lia | exact Hv2].
    + apply ascending_cons. split; [lia|].
      specialize (IH (S j) Hv2 He).
      now replace (Nat.min (S j) i) with (S j) in IH by lia.
Qed.

Lemma sort_rows_spec (v : svec T) :
  distinct_rows v ->
  ascending 0 (sort_rows v) = true
  /\ forall k, entry k (sort_rows v) = entry k v.
Proof.
  induction v as [|[i x] v IH]; cbn [distinct_rows]; [now split|].
  intros [Hi Hd]. destruct (IH Hd) as [Hasc Hent].
  change (sort_rows ((i, x) :: v)) with (insert_sorted (i, x) (sort_rows v)).
  assert (Hnone : entry (fst (i, x)) (sort_rows v) = None)
    by (cbn; now rewrite Hent).
  split.
  - apply (ascending_insert_sorted 0 (i, x) _ Hasc Hnone).
  - intros k. rewrite entry_insert_sorted by exact Hnone. cbn.
    now rewrite Hent.
Qed.

End VectorFacts.

(** ** The dot product as a sum of products *)

Section DotFacts.

Context {TA TB TC : Type}.
Variable add : TC -> TC -> TC.
Variable same : TC -> TC -> bool.
Variable mult : TA -> TB -> TC.

Lemma products_ext (a a' : svec TA) (b : svec TB) :
  (forall e, In e b -> entry (fst e) a = entry (fst e) a') ->
  products mult a b = products mult a' b.
Proof.
  intros H. unfold products. apply flat_map_ext_in.
  intros e He. now rewrite (H e He).
Qed.

Lemma products_nil_l (b : svec TB) : products mult [] b = [].
Proof. unfold products. induction b as [|e b IH]; cbn; auto. Qed.

Lemma products_cons_r (a : svec TA) ib bkj (b : svec TB) :
  products mult a ((ib, bkj) :: b)
  = match entry ib a with
    | Some aki => [mult aki bkj]
    | None => []
    end ++ products mult a b.
Proof. reflexivity. Qed.

Lemma accum_all_cons cij t (ts : list TC) :
  accum_all add cij (t :: ts) = accum_all add (Some (accum add cij t)) ts.
Proof. reflexivity. Qed.

(** Without early exit, the merge loop accumulates the products over the
    common indices. *)
Lemma dot_cij_products (a : svec TA) (b : svec TB) :
  forall la lb cij,
    ascending la a = true -> ascending lb b = true ->
    dot_cij add same mult None a b cij = accum_all add cij (products mult a b).
Proof.
  revert a b.
  apply (merge_ind (fun a b => forall la lb cij, _ -> _ -> _ a b cij = _)).
  - intros b la lb cij _ _. now rewrite dot_cij_nil_l, products_nil_l.
  - intros a la lb cij _ _. now rewrite dot_cij_nil_r.
  - intros ia aki a ib bkj b H1 H2 H3 la lb cij Ha Hb.
    pose proof Ha as Ha'. pose proof Hb as Hb'.
    apply ascending_cons in Ha' as [Ha1 Ha2].
    apply ascending_cons in Hb' as [Hb1 Hb2].
    rewrite dot_cij_cons.
    destruct (Nat.ltb_spec ia ib) as [Hlt|Hge].
    { rewrite (H1 Hlt (S ia) lb cij Ha2 Hb). f_equal.
      symmetry. apply products_ext. intros e He.
      apply (ascending_ge _ _ _ Hb) in He as Hlo.
      assert (ib <= fst e).
      { destruct He as [<-|He]; [cbn; lia|].
        apply (ascending_ge _ _ _ Hb2) in He. lia. }
      cbn. destruct (Nat.eqb_spec ia (fst e)); [lia | reflexivity]. }
    destruct (Nat.ltb_spec ib ia) as [Hlt|Hge'].
    { rewrite (H2 Hlt la (S ib) cij Ha Hb2). f_equal.
      rewrite products_cons_r. cbn [entry].
      destruct (Nat.eqb_spec ia ib); [lia|].
      now rewrite (entry_below_lo (S ia) ib a Ha2) by lia. }
    assert (ia = ib) as <- by lia.
    cbv zeta. cbn [at_terminal].
    rewrite (H3 eq_refl (S ia) (S ia) _ Ha2 Hb2).
    rewrite products_cons_r. cbn [entry].
    rewrite Nat.eqb_refl. cbn [app]. rewrite accum_all_cons. f_equal.
    apply products_ext. intros e He.
    apply (ascending_ge _ _ _ Hb2) in He. cbn.
    destruct (Nat.eqb_spec ia (fst e)); [lia | reflexivity].
Qed.




End DotFacts.

(** ** The saxpy method *)

Section SaxpyFacts.

Context {TA TB TC : Type}.
Variable add : TC -> TC -> TC.
Variable mult : TA -> TB -> TC.

Lemma accum_all_app cij (ts us : list TC) :
  accum_all add cij (ts ++ us) = accum_all add (accum_all add cij ts) us.
Proof. unfold accum_all. apply fold_left_app. Qed.

Lemma row_products_cons (A : list (svec TA)) i k bkj (b : svec TB) :
  row_products mult A i ((k, bkj) :: b)
  = match at_row A i k with
    | Some aik => [mult aik bkj]
    | None => []
    end ++ row_products mult A i b.
Proof. reflexivity. Qed.

(** *** Any accumulator

    An accumulator [w] holds a value for some rows: [value w i].  Both
    workspaces are accumulators; the dense one only for the rows it has a
    slot for. *)
Section Accumulator.

Variable W : Type.
Variable update : W -> nat -> TC -> W.
Variable value : W -> nat -> option TC.
Variable has_slot : W -> nat -> Prop.

Hypothesis update_same : forall w i t,
  has_slot w i -> value (update w i t) i = Some (accum add (value w i) t).
Hypothesis update_other : forall w i j t,
  i <> j -> value (update w i t) j = value w j.
Hypothesis update_slot : forall w i j t,
  has_slot w j -> has_slot (update w i t) j.

Lemma scatter_vector (a : svec TA) (bkj : TB) : forall lo w,
  ascending lo a = true ->
  (forall e, In e a -> has_slot w (fst e)) ->
  let w' := fold_left (fun w e' => update w (fst e') (mult (snd e') bkj)) a w in
  (forall j, has_slot w j -> has_slot w' j)
  /\ forall i, value w' i
       = match entry i a with
         | Some aik => Some (accum add (value w i) (mult aik bkj))
         | None => value w i
         end.
Proof.
  induction a as [|[i0 x] a IH]; intros lo w Ha Hs; cbn [fold_left fst snd].
  - split; auto.
  - apply ascending_cons in Ha as [_ Ha].
    destruct (IH (S i0) (update w i0 (mult x bkj)) Ha) as [IH1 IH2].
    { intros e He. apply update_slot, Hs. now right. }
    split; [intros j Hj; apply IH1, update_slot, Hj|].
    intros i. rewrite IH2. cbn [entry].
    destruct (Nat.eqb_spec i0 i) as [->|Hne].
    + rewrite (entry_below_lo (S i) i a Ha) by lia.
      apply update_same, (Hs (i, x)). now left.
    + now rewrite !update_other by exact Hne.
Qed.

Lemma saxpy_scatter_value (A : list (svec TA)) (b : svec TB) : forall w,
  (forall k a e, A !! k = Some a -> In e a ->
     ascending 0 a = true /\ has_slot w (fst e)) ->
  forall i, value (saxpy_scatter mult update A b w) i
            = accum_all add (value w i) (row_products mult A i b).
Proof.
  unfold saxpy_scatter.
  induction b as [|[k bkj] b IH]; intros w HA i; cbn [fold_left fst snd].
  - reflexivity.
  - rewrite row_products_cons, accum_all_app. unfold at_row.
    destruct (A !! k) as [a|] eqn:Ek; cbn [mbind option_bind].
    + assert (Hasc : ascending 0 a = true).
      { destruct a as [|e a']; [reflexivity|].
        apply (HA k _ e Ek). now left. }
      destruct (scatter_vector a bkj 0 w Hasc) as [Hslot Hval].
      { intros e He. now apply (HA k a e Ek). }
      rewrite IH.
      * rewrite Hval. now destruct (entry i a).
      * intros k' a' e' Ek' He'. destruct (HA k' a' e' Ek' He'). auto.
    + now rewrite IH.
Qed.

End Accumulator.

(** *** The dense workspace *)

Definition dense_value (H : list (option TC)) (i : nat) : option TC :=
  H !! i ≫= id.

Lemma scatter_same (H : list (option TC)) i t :
  i < length H ->
  dense_value (scatter add H i t) i = Some (accum add (dense_value H i) t).
Proof.
  intros Hi. unfold dense_value, scatter.
  now rewrite list_lookup_insert_eq.
Qed.

Lemma scatter_other (H : list (option TC)) i j t :
  i <> j -> dense_value (scatter add H i t) j = dense_value H j.
Proof.
  intros Hne. unfold dense_value, scatter.
  now rewrite list_lookup_insert_ne.
Qed.

Lemma scatter_length (H : list (option TC)) i t :
  length (scatter add H i t) = length H.
Proof. apply length_insert. Qed.

Lemma saxpy_scatter_length (A : list (svec TA)) (b : svec TB) H :
  length (saxpy_scatter mult (scatter add) A b H) = length H.
Proof.
  unfold saxpy_scatter. revert H.
  induction b as [|[k bkj] b IH]; intros H; cbn [fold_left fst]; [reflexivity|].
  rewrite IH. destruct (A !! k) as [a|]; [|reflexivity].
  generalize H. induction a as [|e a IHa]; intros H'; cbn [fold_left];
    [reflexivity|].
  now rewrite IHa, scatter_length.
Qed.

Lemma gather_tabulate (H : list (option TC)) :
  gather H = tabulate (dense_value H) (length H).
Proof.
  unfold gather, tabulate, tabulate_from, dense_value.
  rewrite flat_map_enumerate. apply flat_map_ext_in. intros i _.
  now destruct (H !! i) as [[c|]|].
Qed.

(** *** The hash table *)

Lemma entry_hash_update (table : svec TC) i t k :
  entry k (hash_update add table i t)
  = if i =? k then Some (accum add (entry i table) t) else entry k table.
Proof.
  induction table as [|[j h] table IH]; cbn [hash_update entry accum].
  - reflexivity.
  - destruct (Nat.eqb_spec j i) as [->|Hji]; cbn [entry].
    + now destruct (Nat.eqb_spec i k).
    + rewrite IH.
      destruct (Nat.eqb_spec j k), (Nat.eqb_spec i k); try reflexivity; lia.
Qed.

Lemma distinct_hash_update (table : svec TC) i t :
  distinct_rows table -> distinct_rows (hash_update add table i t).
Proof.
  induction table as [|[j h] table IH]; cbn [hash_update distinct_rows].
  - auto.
  - intros [Hj Hd]. destruct (Nat.eqb_spec j i) as [->|Hji];
      cbn [distinct_rows]; [auto|].
    split; [|auto]. rewrite entry_hash_update.
    destruct (Nat.eqb_spec i j); [lia | exact Hj].
Qed.

Lemma distinct_saxpy_scatter (A : list (svec TA)) (b : svec TB) table :
  distinct_rows table ->
  distinct_rows (saxpy_scatter mult (hash_update add) A b table).
Proof.
  unfold saxpy_scatter. revert table.
  induction b as [|[k bkj] b IH]; intros table Hd; cbn [fold_left fst];
    [exact Hd|].
  apply IH. destruct (A !! k) as [a|]; [|exact Hd].
  revert table Hd. induction a as [|e a IHa]; intros table Hd; cbn [fold_left];
    [exact Hd|].
  apply IHa, distinct_hash_update, Hd.
Qed.

End SaxpyFacts.

(** ** Both methods compute the same vector *)

Section Strategies.

Context {TA TB TC : Type}.
Variable add : TC -> TC -> TC.
Variable same : TC -> TC -> bool.
Variable mult : TA -> TB -> TC.

(** [C(:,j)] as the definition of the product gives it: row [i] has an
    entry when some [A(i,k)] meets some [B(k,j)], and its value is the sum
    of the products in the order of [B(:,j)]. *)
Definition product_vector (m : nat) (A : list (svec TA)) (b : svec TB)
    : svec TC :=
  tabulate (fun i => accum_all add None (row_products mult A i b)) m.

Lemma lookup_map_seq {X} (g : nat -> X) s m i :
  i < m -> map g (seq s m) !! i = Some (g (s + i)).
Proof.
  revert s i. induction m as [|m IH]; intros s i Hi; [lia|].
  destruct i as [|i]; cbn [seq map lookup list_lookup].
  - now rewrite Nat.add_0_r.
  - change (map g (seq (S s) m) !! i = Some (g (s + S i))).
    rewrite IH by lia. f_equal. f_equal. lia.
Qed.

Lemma well_formed_lookup {T} m (A : list (svec T)) k a :
  well_formed m A = true -> A !! k = Some a ->
  ascending 0 a = true /\ below m a = true.
Proof.
  unfold well_formed. rewrite forallb_forall. intros H Hk.
  apply andb_true_iff, H, list_elem_of_In, list_elem_of_lookup. eauto.
Qed.

Lemma below_In {T} m (a : svec T) e :
  below m a = true -> In e a -> fst e < m.
Proof.
  unfold below. rewrite forallb_forall. intros H He.
  apply Nat.ltb_lt, H, He.
Qed.

(** Row [i] of the transpose lists [A(i,k)] by increasing [k]. *)
Lemma transpose_lookup m (A : list (svec TA)) i :
  i < m ->
  transpose m A !! i = Some (tabulate (at_row A i) (length A)).
Proof.
  intros Hi. unfold transpose. rewrite lookup_map_seq by exact Hi.
  f_equal. cbn [Nat.add]. rewrite flat_map_enumerate.
  unfold tabulate, tabulate_from, at_row. apply flat_map_ext_in.
  intros k _. destruct (A !! k) as [a|]; reflexivity.
Qed.

Lemma transpose_length m (A : list (svec TA)) : length (transpose m A) = m.
Proof. unfold transpose. now rewrite length_map, length_seq. Qed.

Lemma entry_transpose_row (A : list (svec TA)) i k :
  entry k (tabulate (at_row A i) (length A)) = at_row A i k.
Proof.
  rewrite entry_tabulate. destruct (Nat.ltb_spec k (length A)); [reflexivity|].
  unfold at_row. now rewrite lookup_ge_None_2.
Qed.

Lemma products_row_products (A : list (svec TA)) i (b : svec TB) :
  products mult (tabulate (at_row A i) (length A)) b
  = row_products mult A i b.
Proof.
  unfold products, row_products. apply flat_map_ext_in. intros e _.
  now rewrite entry_transpose_row.
Qed.

(** No product contributes to a row that [A] does not have. *)
Lemma row_products_above m (A : list (svec TA)) k (b : svec TB) :
  well_formed m A = true -> m <= k -> row_products mult A k b = [].
Proof.
  intros HA Hk. unfold row_products.
  induction b as [|[k' bkj] b IH]; [reflexivity|].
  cbn [flat_map fst snd]. rewrite IH. unfold at_row.
  destruct (A !! k') as [a|] eqn:Ek; [|reflexivity]. cbn.
  destruct (entry k a) as [x|] eqn:Ex; [|reflexivity].
  apply entry_In in Ex. destruct (well_formed_lookup m A k' a HA Ek) as [_ Hb].
  apply (below_In _ _ _ Hb) in Ex. cbn in Ex. lia.
Qed.

(** The dot-product method on [A'] held by row. *)
Lemma dot2_fill_product terminal m (A : list (svec TA)) (b : svec TB) :
  same_is_eq same -> absorbing add terminal ->
  ascending 0 b = true ->
  dot2_fill add same mult terminal (fun _ => true)
            (enumerate (transpose m A)) b
  = product_vector m A b.
Proof.
  intros Hs Habs Hb. unfold dot2_fill, product_vector, tabulate, tabulate_from.
  rewrite flat_map_enumerate, transpose_length.
  apply flat_map_ext_in. intros i Hi. apply in_seq in Hi.
  rewrite transpose_lookup by lia. cbn [fst snd].
  rewrite (dot_cij_terminal add same mult terminal _ _ _ Hs Habs).
  rewrite (dot_cij_products add same mult (tabulate (at_row A i) (length A))
             b 0 0 None (ascending_tabulate_from _ 0 _) Hb).
  now rewrite products_row_products.
Qed.

(** The saxpy method, with either accumulator. *)
Lemma saxpy3_vector_product use_hash m (A : list (svec TA)) (b : svec TB) :
  well_formed m A = true ->
  saxpy3_vector add mult use_hash m A b = product_vector m A b.
Proof.
  intros HA. unfold saxpy3_vector, product_vector.
  assert (Hdense : forall i,
    dense_value (saxpy_scatter mult (scatter add) A b (replicate m None)) i
    = accum_all add None (row_products mult A i b)).
  { intros i.
    rewrite (saxpy_scatter_value add mult _ (scatter add) dense_value
               (fun H i => i < length H)).
    - unfold dense_value at 1. destruct (replicate m None !! i) eqn:E;
        [|reflexivity].
      apply lookup_replicate in E as [-> _]. reflexivity.
    - intros. now apply scatter_same.
    - intros. now apply scatter_other.
    - intros. now rewrite scatter_length.
    - intros k a e Hk He. destruct (well_formed_lookup m A k a HA Hk).
      split; [assumption|]. rewrite length_replicate. eapply below_In; eauto. }
  destruct use_hash.
  - set (table := saxpy_scatter mult (hash_update add) A b []).
    assert (Hd : distinct_rows table)
      by (apply distinct_saxpy_scatter; exact I).
    destruct (sort_rows_spec table Hd) as [Hasc Hent].
    apply (ascending_ext 0); [exact Hasc | apply ascending_tabulate_from |].
    intros k. rewrite Hent, entry_tabulate. unfold table.
    rewrite (saxpy_scatter_value add mult _ (hash_update add)
               (fun t i => entry i t) (fun _ _ => True)).
    + cbn [entry]. destruct (Nat.ltb_spec k m); [reflexivity|].
      (* no row of [A] is as large as [k] *)
      now rewrite (row_products_above m A k b HA).
    + intros. rewrite entry_hash_update. now rewrite Nat.eqb_refl.
    + intros w i j t Hne. rewrite entry_hash_update.
      destruct (Nat.eqb_spec i j); [contradiction | reflexivity].
    + auto.
    + intros k' a e Hk He. destruct (well_formed_lookup m A k' a HA Hk). auto.
  - rewrite gather_tabulate, saxpy_scatter_length, length_replicate.
    unfold tabulate, tabulate_from. apply flat_map_ext_in. intros i _.
    now rewrite Hdense.
Qed.

End Strategies.

(** ** Masks *)

Section MaskFacts.

Context {TA TB TC : Type}.
Variable add : TC -> TC -> TC.
Variable same : TC -> TC -> bool.
Variable mult : TA -> TB -> TC.
Variable terminal : option TC.






End MaskFacts.

(** ** The built-in semirings *)

Lemma lor_same_is_eq : same_is_eq LorFirstBool.GB_SAME.
Proof. intros x y H. now apply Bool.eqb_prop. Qed.

Lemma lor_absorbing : absorbing LorFirstBool.GB_ADD LorFirstBool.GB_TERMINAL.
Proof. intros t [= <-] x. reflexivity. Qed.

Lemma Zeqb_same_is_eq : same_is_eq Z.eqb.
Proof. intros x y H. now apply Z.eqb_eq. Qed.

Lemma no_terminal_absorbing {TC} (add : TC -> TC -> TC) : absorbing add None.
Proof. intros t H. discriminate. Qed.

Lemma max_int8_absorbing :
  forall x, is_int8 x -> MaxInt8.GB_REDUCE INT8_MAX x = INT8_MAX.
Proof.
  intros x Hx. unfold MaxInt8.GB_REDUCE, is_int8, INT8_MAX in *.
  rewrite GB_IMAX_max. lia.
Qed.

Lemma fold_left_max_top Ax :
  Forall is_int8 Ax -> fold_left Z.max Ax INT8_MAX = INT8_MAX.
Proof.
  induction 1 as [|y Ax Hy _ IH]; cbn; [reflexivity|].
  unfold is_int8, INT8_MAX in *.
  now replace (Z.max 127 y) with 127%Z by lia.
Qed.

Lemma reduce_into_s_max s Ax :
  Forall is_int8 Ax ->
  MaxInt8.reduce_into_s s Ax = fold_left Z.max Ax s.
Proof.
  intros H. revert s. induction H as [|x Ax Hx HAx IH]; intros s; cbn;
    [reflexivity|].
  unfold MaxInt8.GB_REDUCE_TERMINAL, MaxInt8.GB_REDUCE.
  rewrite GB_IMAX_max.
  destruct (Z.eqb_spec (Z.max s x) INT8_MAX) as [E|_]; [|apply IH].
  rewrite E. symmetry. now apply fold_left_max_top.
Qed.

Lemma reduce_into_t_max t Ax :
  MaxInt8.reduce_into_t MaxInt8.GB_IDENTITY t Ax = fold_left Z.max Ax t.
Proof.
  revert t. induction Ax as [|x Ax IH]; intros t; cbn; [reflexivity|].
  unfold MaxInt8.GB_REDUCE. now rewrite GB_IMAX_max, IH.
Qed.

Lemma fold_left_max_split (lo s : Z) Ax :
  (lo <= s)%Z ->
  fold_left Z.max Ax s = Z.max s (fold_left Z.max Ax lo).
Proof.
  revert s lo. induction Ax as [|x Ax IH]; intros s lo Hs; cbn; [lia|].
  rewrite (IH (Z.max s x) lo) by lia.
  rewrite (IH (Z.max lo x) lo) by lia. lia.
Qed.

Lemma reduce_threads_max parts : forall s,
  (INT8_MIN <= s)%Z ->
  fold_left (fun s wt => GB_IMAX s wt)
    (map (MaxInt8.reduce_into_t MaxInt8.GB_IDENTITY MaxInt8.GB_IDENTITY) parts) s
  = fold_left Z.max (concat parts) s.
Proof.
  induction parts as [|p parts IH]; intros s Hs; cbn; [reflexivity|].
  rewrite GB_IMAX_max, reduce_into_t_max, fold_left_app.
  rewrite IH by lia. f_equal. symmetry.
  now apply fold_left_max_split.
Qed.

(** The reduction of the generated file returns the maximum of all the
    entries, whatever the number of threads and however [Ax] is divided. *)
Lemma GB_red_scalar__max_int8_full parts nthreads :
  Forall (Forall is_int8) parts ->
  MaxInt8.GB_red_scalar__max_int8 parts nthreads
  = fold_left Z.max (concat parts) INT8_MIN.
Proof.
  intros H. unfold MaxInt8.GB_red_scalar__max_int8.
  destruct (nthreads =? 1)%Z.
  - apply reduce_into_s_max. now apply Forall_concat.
  - apply reduce_threads_max. reflexivity.
Qed.

(** ** Scenarios *)

(** The 3x3 identity times diag (2, 3, 4), by both methods. *)
Definition identity3 : list (svec Z) :=
  [ [(0, 1%Z)] ; [(1, 1%Z)] ; [(2, 1%Z)] ].
Definition diag234 : list (svec Z) :=
  [ [(0, 2%Z)] ; [(1, 3%Z)] ; [(2, 4%Z)] ].

Example identity_times_diagonal :
  map (PlusTimes.dot2 (enumerate (transpose 3 identity3))) diag234 = diag234
  /\ map (PlusTimes.saxpy3 false 3 identity3) diag234 = diag234
  /\ map (PlusTimes.saxpy3 true 3 identity3) diag234 = diag234.
Proof. repeat split; reflexivity. Qed.

(** [A(0,1) = true] and [B(1,0) = true] over a boolean semiring: the first
    product already gives the terminal value. *)
Example boolean_terminal :
  dot_cij LorFirstBool.GB_ADD LorFirstBool.GB_SAME LorFirstBool.GB_MULT
          LorFirstBool.GB_TERMINAL [(1, true); (2, true)] [(1, true); (2, true)]
          None = Some true
  /\ LorFirstBool.GB_Adot2B__lor_first_bool (fun _ => true)
       (enumerate (transpose 2 [ [] ; [(0, true)] ])) [(1, true)]
     = [(0, true)].
Proof. split; reflexivity. Qed.

(** A dense 2x3 times 3x2 product whose vectors have several entries. *)
Example dot_and_saxpy :
  let A := [ [(0, 1%Z); (1, 4%Z)] ; [(0, 2%Z); (1, 5%Z)] ;
             [(0, 3%Z); (1, 6%Z)] ] in
  let b := [(0, 7%Z); (1, 9%Z); (2, 11%Z)] in
  let c := [(0, 58%Z); (1, 139%Z)] in
  PlusTimes.dot2 (enumerate (transpose 2 A)) b = c
  /\ PlusTimes.saxpy3 true 2 A b = c
  /\ PlusTimes.saxpy3 false 2 A b = c.
Proof. repeat split; reflexivity. Qed.

(** ** The claims about the kernels *)

Section Claims.

Context {TA TB TC : Type}.
Variable add : TC -> TC -> TC.
Variable same : TC -> TC -> bool.
Variable mult : TA -> TB -> TC.
Variable terminal : option TC.

(** C2.  For every [A] with [m] rows, every [B] whose vectors are ascending
    and every semiring whose terminal value (if any) absorbs, the
    dot-product method, which is given [A] by row, and the saxpy method
    with either accumulator, which is given [A] by column, produce the same
    (row, value) pairs in every column of the unmasked product; both list
    them by increasing row. *)
Theorem dot_equals_saxpy (m : nat) (A : list (svec TA)) (B : list (svec TB))
    (use_hash : nat -> bool) (j : nat) (b : svec TB) :
  same_is_eq same -> absorbing add terminal ->
  well_formed m A = true ->
  B !! j = Some b -> ascending 0 b = true ->
  let dot := dot2_fill add same mult terminal (fun _ => true)
                       (enumerate (transpose m A)) b in
  let saxpy := saxpy3_vector add mult (use_hash j) m A b in
  dot = saxpy /\ forall e, In e dot <-> In e saxpy.
Proof.
  intros Hs Habs HA _ Hb dot saxpy.
  assert (E : dot = saxpy).
  { unfold dot, saxpy.
    rewrite (dot2_fill_product add same mult terminal m A b Hs Habs Hb).
    now rewrite (saxpy3_vector_product add mult (use_hash j) m A b HA). }
  split; [exact E | intros e; now rewrite E].
Qed.


(** C4.  For every monoid whose terminal value absorbs under its operator,
    the dot-product loop and the reduction loop return with the early exit
    the value that the same loop returns when it scans everything; the
    reduction of GB_red__max_int8.c returns the maximum of all entries for
    every number of threads. *)
Theorem terminal_exit_same_value :
  same_is_eq same -> absorbing add terminal ->
  (forall (a : svec TA) (b : svec TB) cij,
      dot_cij add same mult terminal a b cij
      = dot_cij add same mult None a b cij)
  /\ (forall s Ax,
        reduce_loop add same terminal s Ax = reduce_loop add same None s Ax
        /\ reduce_loop add same terminal s Ax = fold_left add Ax s)
  /\ (forall parts nthreads,
        Forall (Forall is_int8) parts ->
        MaxInt8.GB_red_scalar__max_int8 parts nthreads
        = fold_left Z.max (concat parts) INT8_MIN).
Proof.
  intros Hs Habs. split; [|split].
  - intros a b cij. now apply dot_cij_terminal.
  - intros s Ax.
    rewrite (reduce_loop_terminal add same terminal s Ax Hs Habs).
    now rewrite reduce_loop_full.
  - apply GB_red_scalar__max_int8_full.
Qed.

End Claims.

(** The witnesses use the boolean semiring of the generated file. *)
Lemma dot_equals_saxpy_witness :
  let A := [ [(0, true); (1, true)] ; [(1, true)] ] in
  let b := [(0, false); (1, true)] in
  same_is_eq LorFirstBool.GB_SAME
  /\ absorbing LorFirstBool.GB_ADD LorFirstBool.GB_TERMINAL
  /\ well_formed 2 A = true
  /\ [b] !! 0 = Some b /\ ascending 0 b = true
  /\ LorFirstBool.GB_Adot2B__lor_first_bool (fun _ => true)
       (enumerate (transpose 2 A)) b
     = LorFirstBool.GB_Asaxpy3B__lor_first_bool true 2 A b.
Proof.
  intros A b.
  exact (conj lor_same_is_eq (conj lor_absorbing (conj eq_refl (conj eq_refl
    (conj eq_refl
      (proj1 (dot_equals_saxpy LorFirstBool.GB_ADD LorFirstBool.GB_SAME
                LorFirstBool.GB_MULT LorFirstBool.GB_TERMINAL 2 A [b]
                (fun _ => true) 0 b lor_same_is_eq lor_absorbing
                eq_refl eq_refl eq_refl))))))).
Defined.


Lemma terminal_exit_same_value_witness :
  let a := [(0, false); (1, true); (3, false)] in
  let b := [(1, true); (2, true); (3, true)] in
  same_is_eq LorFirstBool.GB_SAME
  /\ absorbing LorFirstBool.GB_ADD LorFirstBool.GB_TERMINAL
  /\ dot_cij LorFirstBool.GB_ADD LorFirstBool.GB_SAME LorFirstBool.GB_MULT
             LorFirstBool.GB_TERMINAL a b None
     = dot_cij LorFirstBool.GB_ADD LorFirstBool.GB_SAME LorFirstBool.GB_MULT
               None a b None.
Proof.
  intros a b.
  exact (conj lor_same_is_eq (conj lor_absorbing
    (proj1 (terminal_exit_same_value (TA := bool) (TB := bool)
              LorFirstBool.GB_ADD LorFirstBool.GB_SAME LorFirstBool.GB_MULT
              LorFirstBool.GB_TERMINAL lor_same_is_eq lor_absorbing)
       a b None))).
Defined.

End Kernels.

(* ===================================================================== *)
(** * The macros of the generated files *)
(* ===================================================================== *)

Module Generated.
Import CInt Kernels.

(** ** The semiring of part_001: LOR, FIRST, bool *)

(** [z |= x], [Cx [p] |= t], [Hx [i] |= t], [x | y] and the test of
    [if (cij == true) break]. *)
Definition GB_MULTADD (z x y : bool) : bool := z || x.
Definition GB_CIJ_UPDATE (Cx_p t : bool) : bool := Cx_p || t.
Definition GB_HX_UPDATE (Hx_i t : bool) : bool := Hx_i || t.
Definition GB_ADD_FUNCTION (x y : bool) : bool := x || y.
Definition GB_DOT_TERMINAL (cij : bool) : bool := Bool.eqb cij true.

(** ** The monoid of GB_red__max_int8.c *)

(** [s = GB_IMAX (s, w [tid])]. *)
Definition GB_REDUCE_W (s w_tid : Z) : Z := GB_IMAX s w_tid.

Local Open Scope Z_scope.

(** The macros of the boolean semiring agree with each other: the fused
    multiply-add is the multiplication followed by the addition, and the
    three updates are the addition.  The addition is associative and
    commutative, the identity that the file declares is neutral for it,
    and a [cij] on which the terminal test fires is the terminal value of
    the file and is not changed by any further addition. *)
Theorem lor_first_bool_macros :
  (forall z x y,
      GB_MULTADD z x y = LorFirstBool.GB_ADD z (LorFirstBool.GB_MULT x y))
  /\ (forall c t,
        GB_CIJ_UPDATE c t = LorFirstBool.GB_ADD c t
        /\ GB_HX_UPDATE c t = LorFirstBool.GB_ADD c t
        /\ GB_ADD_FUNCTION c t = LorFirstBool.GB_ADD c t)
  /\ (forall x,
        LorFirstBool.GB_ADD LorFirstBool.GB_IDENTITY x = x
        /\ LorFirstBool.GB_ADD x LorFirstBool.GB_IDENTITY = x)
  /\ (forall x y z,
        LorFirstBool.GB_ADD x (LorFirstBool.GB_ADD y z)
        = LorFirstBool.GB_ADD (LorFirstBool.GB_ADD x y) z
        /\ LorFirstBool.GB_ADD x y = LorFirstBool.GB_ADD y x)
  /\ (forall cij, GB_DOT_TERMINAL cij = true ->
        LorFirstBool.GB_TERMINAL = Some cij
        /\ forall t, LorFirstBool.GB_ADD cij t = cij).
Proof.
  repeat split; try (intros; reflexivity).
  - now destruct x.
  - now destruct x, y, z.
  - now destruct x, y.
  - destruct cij; [reflexivity | discriminate].
  - destruct cij; [reflexivity | discriminate].
Qed.

Lemma lor_first_bool_macros_witness :
  GB_DOT_TERMINAL true = true
  /\ forall t, LorFirstBool.GB_ADD true t = true.
Proof.
  exact (conj eq_refl
    (proj2 (proj2 (proj2 (proj2 (proj2 lor_first_bool_macros))) true
              eq_refl))).
Defined.

(** On [int8_t] values the reduction of the file is a commutative monoid
    with the identity that the file declares: [GB_REDUCE] stays within
    [int8_t], is associative and commutative, and [INT8_MIN] is neutral;
    the reduction of the results of the threads is the same operation;
    the result is at least both arguments; and an [s] on which the
    terminal test fires is not changed by any further entry. *)
Theorem max_int8_monoid x y z :
  is_int8 x -> is_int8 y -> is_int8 z ->
  is_int8 (MaxInt8.GB_REDUCE x y)
  /\ MaxInt8.GB_REDUCE MaxInt8.GB_IDENTITY x = x
  /\ MaxInt8.GB_REDUCE x MaxInt8.GB_IDENTITY = x
  /\ MaxInt8.GB_REDUCE x (MaxInt8.GB_REDUCE y z)
     = MaxInt8.GB_REDUCE (MaxInt8.GB_REDUCE x y) z
  /\ MaxInt8.GB_REDUCE x y = MaxInt8.GB_REDUCE y x
  /\ GB_REDUCE_W x y = MaxInt8.GB_REDUCE x y
  /\ x <= MaxInt8.GB_REDUCE x y /\ y <= MaxInt8.GB_REDUCE x y
  /\ (MaxInt8.GB_REDUCE_TERMINAL x x = true -> MaxInt8.GB_REDUCE x y = x).
Proof.
  unfold is_int8, MaxInt8.GB_REDUCE, MaxInt8.GB_IDENTITY, GB_REDUCE_W,
    MaxInt8.GB_REDUCE_TERMINAL, INT8_MIN, INT8_MAX.
  intros Hx Hy Hz. rewrite !GB_IMAX_max.
  repeat split; lia.
Qed.

Lemma max_int8_monoid_witness :
  is_int8 127 /\ is_int8 (-128) /\ is_int8 5
  /\ MaxInt8.GB_REDUCE_TERMINAL 127 127 = true
  /\ MaxInt8.GB_REDUCE 127 (-128) = 127.
Proof.
  assert (H1 : is_int8 127) by (unfold is_int8; lia).
  assert (H2 : is_int8 (-128)) by (unfold is_int8; lia).
  assert (H3 : is_int8 5) by (unfold is_int8; lia).
  exact (conj H1 (conj H2 (conj H3 (conj eq_refl
    (proj2 (proj2 (proj2 (proj2 (proj2 (proj2 (proj2 (proj2
       (max_int8_monoid 127 (-128) 5 H1 H2 H3))))))))
       eq_refl))))).
Defined.

End Generated.

(* ===================================================================== *)
(** * Source/GB_AxB_dot2.c *)
(* ===================================================================== *)

Module Dot2.
Import CInt Kernels.

Inductive GrB_Info : Type :=
| GrB_SUCCESS
| GrB_OUT_OF_MEMORY.

Definition GrB_Info_eqb (a b : GrB_Info) : bool :=
  match a, b with
  | GrB_SUCCESS, GrB_SUCCESS => true
  | GrB_OUT_OF_MEMORY, GrB_OUT_OF_MEMORY => true
  | _, _ => false
  end.

(** ** Matrices *)

(** The fields of [struct GB_Matrix_opaque] that the function reads or
    writes: the dimensions, the number of vectors, the cached number of
    non-empty vectors (negative while it has not been computed), and the
    arrays [h], [p], [i] and [x]. *)
Record GrB_Matrix (T : Type) : Type := mkMatrix {
  vlen : Z ;
  vdim : Z ;
  nvec : Z ;
  nvec_nonempty : Z ;
  is_hyper : bool ;
  h : list Z ;
  p : list Z ;
  i : list Z ;
  x : list T
}.

Arguments mkMatrix {T}.
Arguments vlen {T}.
Arguments vdim {T}.
Arguments nvec {T}.
Arguments nvec_nonempty {T}.
Arguments is_hyper {T}.
Arguments h {T}.
Arguments p {T}.
Arguments i {T}.
Arguments x {T}.

Definition set_nvec_nonempty {T} (A : GrB_Matrix T) (n : Z) : GrB_Matrix T :=
  {| vlen := vlen A ; vdim := vdim A ; nvec := nvec A ; nvec_nonempty := n ;
     is_hyper := is_hyper A ; h := h A ; p := p A ; i := i A ; x := x A |}.

(** [Ap [k]], and 0 outside the array. *)
Definition Ap {T} (A : GrB_Matrix T) (k : nat) : Z := default 0 (p A !! k).

(** The entries of the [k]-th vector: [(Ai [q], Ax [q])] for
    [Ap [k] <= q < Ap [k+1]]. *)
Definition GB_vector {T} (A : GrB_Matrix T) (k : nat) : svec T :=
  let pstart := Z.to_nat (Ap A k) in
  let len := (Z.to_nat (Ap A (S k)) - pstart)%nat in
  combine (map Z.to_nat (take len (drop pstart (i A))))
          (take len (drop pstart (x A))).

(** The index of the [k]-th vector: [Ah [k]] in a hypersparse matrix (the
    slices of [A] are hypersparse), [k] otherwise. *)
Definition GB_vector_index {T} (A : GrB_Matrix T) (k : nat) : nat :=
  if is_hyper A then Z.to_nat (default 0 (h A !! k)) else k.

(** [GB_for_each_vector (A)]: the vectors with their indices. *)
Definition GB_vectors {T} (A : GrB_Matrix T) : list (nat * svec T) :=
  map (fun k => (GB_vector_index A k, GB_vector A k))
      (seq 0 (Z.to_nat (nvec A))).

(** Modelled from the spec: GB_nvec_nonempty, which is not under src/, is
    the number of vectors that hold at least one entry. *)
Definition GB_nvec_nonempty {T} (A : GrB_Matrix T) : Z :=
  Z.of_nat (length (List.filter (fun k => Ap A k <? Ap A (S k))
                                (seq 0 (Z.to_nat (nvec A))))).

(** The mask by column, as the kernels look it up. *)
Definition mask_of (M : GrB_Matrix bool) : mask :=
  map (fun j => match List.find (fun v => (fst v =? j)%nat) (GB_vectors M) with
                | Some v => snd v
                | None => []
                end)
      (seq 0 (Z.to_nat (vdim M))).

(** ** The heap *)

Inductive block : Type :=
| Counts (tid : nat)           (* the scratch array C_counts [tid] *)
| Header                       (* the header of C, with C->p and C->h *)
| Entries.                     (* C->i and C->x *)

Inductive event : Type :=
| Malloc (b : block) (n : Z)
| Free (b : block).

Definition block_eqb (a b : block) : bool :=
  match a, b with
  | Counts s, Counts t => (s =? t)%nat
  | Header, Header => true
  | Entries, Entries => true
  | _, _ => false
  end.

Definition mallocs (b : block) (heap : list event) : nat :=
  length (List.filter (fun e => match e with
                                | Malloc b' _ => block_eqb b b'
                                | Free _ => false
                                end) heap).

Definition frees (b : block) (heap : list event) : nat :=
  length (List.filter (fun e => match e with
                                | Free b' => block_eqb b b'
                                | Malloc _ _ => false
                                end) heap).

(** Which of the allocations of a call succeed. *)
Record allocator : Type := mkAllocator {
  count_alloc : nat -> bool ;  (* in GB_AxB_dot2_count of thread [tid] *)
  new_alloc : bool ;           (* in GB_NEW *)
  ix_alloc : bool              (* in GB_ix_alloc *)
}.

(** ** The result matrix while it is built *)

Inductive magic : Type :=
| GB_MAGIC                     (* a valid matrix *)
| GB_MAGIC2.                   (* allocated, not yet initialised *)

(** [slots] stands for the parallel arrays [C->i] and [C->x]: slot [q] is
    [(Ci [q], Cx [q])], or [None] while nothing has been stored there;
    the arrays themselves are absent until GB_ix_alloc. *)
Record C_Matrix (T : Type) : Type := mkC {
  c_vlen : Z ;
  c_vdim : Z ;
  c_nvec : Z ;
  c_nvec_nonempty : Z ;
  c_is_hyper : bool ;
  c_h : list Z ;
  c_p : list Z ;
  c_slots : option (list (option (nat * T))) ;
  c_magic : magic
}.

Arguments mkC {T}.
Arguments c_vlen {T}.
Arguments c_vdim {T}.
Arguments c_nvec {T}.
Arguments c_nvec_nonempty {T}.
Arguments c_is_hyper {T}.
Arguments c_h {T}.
Arguments c_p {T}.
Arguments c_slots {T}.
Arguments c_magic {T}.

Definition set_slots {T} (C : C_Matrix T)
    (slots : option (list (option (nat * T)))) : C_Matrix T :=
  {| c_vlen := c_vlen C ; c_vdim := c_vdim C ; c_nvec := c_nvec C ;
     c_nvec_nonempty := c_nvec_nonempty C ; c_is_hyper := c_is_hyper C ;
     c_h := c_h C ; c_p := c_p C ; c_slots := slots ; c_magic := c_magic C |}.

(** ** The cumulative sums *)

Definition Zsum (l : list Z) : Z := fold_right Z.add 0%Z l.

(** Lines 166-172, the loop over the threads for one [k]:
    [c = C_count [k] ; C_count [k] = s ; s += c]. *)
Fixpoint scan_threads (k : nat) (C_counts : list (list Z)) (s : Z)
    : list (list Z) * Z :=
  match C_counts with
  | [] => ([], s)
  | C_count :: rest =>
      let c := default 0%Z (C_count !! k) in
      let C_count' := <[k := s]> C_count in
      let (rest', s') := scan_threads k rest (int64_t (s + c)) in
      (C_count' :: rest', s')
  end.

(** Lines 162-175: the loop over [k], then [Cp [cnvec] = 0]. *)
Definition scan_vectors (cnvec : nat) (C_counts : list (list Z))
    (Cp : list Z) : list (list Z) * list Z :=
  let (C_counts', Cp') :=
    fold_left (fun st k =>
                 let (C_counts', s) := scan_threads k (fst st) 0%Z in
                 (C_counts', <[k := s]> (snd st)))
              (seq 0 cnvec) (C_counts, Cp) in
  (C_counts', <[cnvec := 0%Z]> Cp').

(** Modelled from the spec: GB_cumsum, which is not under src/ ("Cp =
    cumulative sum of Cp").  [count [0..n]] is replaced by its cumulative
    sum, so that [count [n]] is the total; the second result is the number
    of non-zero counts. *)
Fixpoint GB_cumsum_from (s : Z) (n : nat) (count : list Z) : list Z * Z :=
  match n, count with
  | O, _ :: rest => (s :: rest, 0%Z)
  | S n', c :: rest =>
      let (rest', nonempty) := GB_cumsum_from (int64_t (s + c)) n' rest in
      (s :: rest', if (c =? 0)%Z then nonempty else (nonempty + 1)%Z)
  | _, [] => ([], 0%Z)
  end.

Definition GB_cumsum (count : list Z) (n : nat) : list Z * Z :=
  GB_cumsum_from 0%Z n count.

(** ** The counts of phase 1, as numbers *)

(** [C_counts [tid][k]] for every thread: column [k] of the counts. *)
Definition column (k : nat) (counts : list (list Z)) : list Z :=
  map (fun C_count => default 0%Z (C_count !! k)) counts.

(** The number of entries of vector [k]: the sum over the threads. *)
Definition total (counts : list (list Z)) (k : nat) : Z :=
  Zsum (column k counts).

(** The number of entries of vector [k] that the threads before [tid]
    contribute. *)
Definition offset (counts : list (list Z)) (tid k : nat) : Z :=
  Zsum (take tid (column k counts)).

(** The number of entries of the vectors before [k]. *)
Definition before (counts : list (list Z)) (k : nat) : Z :=
  Zsum (map (total counts) (seq 0 k)).

(** The counts of a call are arrays of [cnvec] numbers that are not
    negative, and their sum is an [int64_t]. *)
Definition counts_ok (cnvec : nat) (counts : list (list Z)) : Prop :=
  Forall (fun C_count => length C_count = cnvec
                         /\ Forall (fun c => (0 <= c)%Z) C_count) counts
  /\ (before counts cnvec <= INT64_MAX)%Z.

(** ** The layout of the stores *)

(** A store into an array: (position, element). *)
Definition store_at {X} (slots : list (option X)) (w : nat * X)
    : list (option X) :=
  <[fst w := Some (snd w)]> slots.

(** The stores that put the blocks [bs] one after the other from position
    [b]: (position, element). *)
Fixpoint place {X} (b : nat) (bs : list (list X)) : list (nat * X) :=
  match bs with
  | [] => []
  | blk :: rest =>
      imap (fun d e => ((b + d)%nat, e)) blk ++ place (b + length blk) rest
  end.

(** ** The driver *)

Definition empty_matrix {T} : GrB_Matrix T :=
  mkMatrix 0%Z 0%Z 0%Z 0%Z false [] [] [] [].

(** Lines 121-124 and 132-135: the cached count of a matrix is filled in
    when it is negative, with the count of the matrix [A] that is passed
    to GB_nvec_nonempty. *)
Definition cache_nvec_nonempty {T} (A X : GrB_Matrix T) : GrB_Matrix T :=
  if (nvec_nonempty X <? 0)%Z
  then set_nvec_nonempty X (GB_nvec_nonempty A)
  else X.

(** [GB_FREE_MEMORY (p, n, size)] frees a pointer that is not NULL and sets
    it to NULL. *)
Definition GB_FREE_MEMORY (tid : nat) (ptr : option (list Z)) : list event :=
  match ptr with
  | Some _ => [Free (Counts tid)]
  | None => []
  end.

(** Lines 29-35, [GB_FREE_ALL]. *)
Definition GB_FREE_ALL (C_counts : list (option (list Z)))
    : list (option (list Z)) * list event :=
  (map (fun _ => None) C_counts,
   flat_map (fun e => GB_FREE_MEMORY (fst e) (snd e)) (enumerate C_counts)).

(** The allocations of phase 1: one array for every thread whose
    GB_AxB_dot2_count succeeds. *)
Definition count_events (C_counts : list (option (list Z))) : list event :=
  flat_map (fun e => match snd e with
                     | Some C_count =>
                         [Malloc (Counts (fst e)) (Z.of_nat (length C_count))]
                     | None => []
                     end) (enumerate C_counts).

Definition is_some {X} (o : option X) : bool :=
  match o with Some _ => true | None => false end.

(** The positions of vector [k] of [C] that the call computes. *)
Definition selects (M : option (GrB_Matrix bool)) (Mask_comp : bool)
    {T} (B : GrB_Matrix T) (k : nat) (i : nat) : bool :=
  mask_selection (option_map mask_of M) Mask_comp false i
                 (GB_vector_index B k).

Section Driver.

Context {TA TB TC : Type}.
Variable add : TC -> TC -> TC.
Variable same : TC -> TC -> bool.
Variable mult : TA -> TB -> TC.
Variable terminal : option TC.

(** The allocations that succeed during the call, and what the memory
    that [malloc] returns for [C->p] happens to hold. *)
Variable alloc : allocator.
Variable junk : nat -> Z.

(** What a slice contributes to vector [k] of [C]: the number of entries
    that phase 1 counts, and the entries that phase 2 computes. *)
Definition slice_count (M : option (GrB_Matrix bool)) (Mask_comp : bool)
    (A : GrB_Matrix TA) (B : GrB_Matrix TB) (k : nat) : Z :=
  Z.of_nat (dot2_count (selects M Mask_comp B k) (GB_vectors A)
                       (GB_vector B k)).

Definition slice_entries (M : option (GrB_Matrix bool)) (Mask_comp : bool)
    (A : GrB_Matrix TA) (B : GrB_Matrix TB) (k : nat) : svec TC :=
  dot2_fill add same mult terminal (selects M Mask_comp B k) (GB_vectors A)
            (GB_vector B k).

(** Modelled from the spec: GB_AxB_dot2_count, which is not under src/.
    It allocates the array of the thread and counts, for every vector of
    [B], the entries that the slice contributes (phase 1). *)
Definition GB_AxB_dot2_count (tid : nat) (M : option (GrB_Matrix bool))
    (Mask_comp : bool) (A : GrB_Matrix TA) (B : GrB_Matrix TB)
    : option (list Z) :=
  if count_alloc alloc tid then
    Some (map (slice_count M Mask_comp A B) (seq 0 (Z.to_nat (nvec B))))
  else None.

(** Modelled from the spec: the macro GB_NEW and GB_new, which are not
    under src/.  On success the handle holds a new header whose [p] has
    one entry more than there are vectors, not initialised; on failure
    the handle holds NULL. *)
Definition GB_NEW (cvlen cvdim : Z) (hyper : bool) (cnvec : nat)
    : GrB_Info * option (C_Matrix TC) :=
  if new_alloc alloc then
    (GrB_SUCCESS,
     Some {| c_vlen := cvlen ; c_vdim := cvdim ;
             c_nvec := Z.of_nat cnvec ; c_nvec_nonempty := (-1)%Z ;
             c_is_hyper := hyper ;
             c_h := if hyper then map junk (seq (S cnvec) cnvec) else [] ;
             c_p := map junk (seq 0 (S cnvec)) ;
             c_slots := None ; c_magic := GB_MAGIC2 |})
  else (GrB_OUT_OF_MEMORY, None).

(** Modelled from the spec: the slice of vector [k] that the prefix sums
    assign to a thread, in the dot-product template, which is not under
    src/.  It goes from [cnz] up to [cnz_last]: from [Cp [k]], plus
    [C_count_start [k]] when that pointer is not NULL, up to [Cp [k]] plus
    [C_count_end [k]], or to [Cp [k+1]] when that pointer is NULL. *)
Definition thread_range (Cp : list Z)
    (C_count_start C_count_end : option (list Z)) (k : nat) : Z * Z :=
  ((default 0 (Cp !! k)
    + match C_count_start with
      | Some C_count => default 0 (C_count !! k)
      | None => 0
      end)%Z,
   match C_count_end with
   | Some C_count => (default 0 (Cp !! k) + default 0 (C_count !! k))%Z
   | None => default 0%Z (Cp !! S k)
   end).

(** Modelled from the spec: the phase-2 pass of the dot-product template,
    which is not under src/, for one thread.  The entries of vector [k]
    are stored one after the other from the start of the slice of the
    thread.  The result lists the stores: (position, entry). *)
Definition thread_stores (Cp : list Z)
    (C_count_start C_count_end : option (list Z))
    (M : option (GrB_Matrix bool)) (Mask_comp : bool)
    (A : GrB_Matrix TA) (B : GrB_Matrix TB) : list (nat * (nat * TC)) :=
  flat_map (fun k =>
              let cnz := fst (thread_range Cp C_count_start C_count_end k) in
              imap (fun d e => (Z.to_nat (cnz + Z.of_nat d), e))
                   (slice_entries M Mask_comp A B k))
           (seq 0 (Z.to_nat (nvec B))).

(** Modelled from the spec: GB_ix_alloc, which is not under src/.  On
    success [C->i] and [C->x] are new arrays of [nzmax] slots, which hold
    nothing yet. *)
Definition GB_ix_alloc (C : C_Matrix TC) (nzmax : Z)
    : GrB_Info * C_Matrix TC * list event :=
  if ix_alloc alloc then
    (GrB_SUCCESS,
     set_slots C (Some (replicate (Z.to_nat nzmax) None)),
     [Malloc Entries nzmax])
  else (GrB_OUT_OF_MEMORY, C, []).

(** What the call leaves behind. *)
Record outcome : Type := mkOutcome {
  info : GrB_Info ;                        (* the value returned *)
  Chandle : option (C_Matrix TC) ;         (* *Chandle *)
  Aslice_out : list (GrB_Matrix TA) ;      (* the slices of A *)
  B_out : GrB_Matrix TB ;
  M_out : option (GrB_Matrix bool) ;
  mask_applied : option bool ;             (* *mask_applied *)
  C_counts : list (option (list Z)) ;      (* the scratch pointers *)
  heap : list event ;                      (* allocations and frees, in order *)
  ranges : list (list (Z * Z)) ;           (* the slices of phase 2, by thread *)
  stores : list (list (nat * (nat * TC)))  (* phase-2 stores, by thread *)
}.

Definition GB_AxB_dot2
    (Chandle_in : option (C_Matrix TC))
    (M : option (GrB_Matrix bool)) (Mask_comp : bool)
    (Aslice : list (GrB_Matrix TA)) (B : GrB_Matrix TB)
    (mask_applied_in : option bool) : outcome :=
  let A := hd empty_matrix Aslice in
  (* line 109: the handle is set to NULL; GB_NEW below overwrites it *)
  (* lines 117-124 *)
  let cvlen := vdim A in
  let cvdim := vdim B in
  let B1 := cache_nvec_nonempty B B in
  (* lines 126-143: phase 1 *)
  let Aslice1 := map (cache_nvec_nonempty A) Aslice in
  let C_counts0 :=
    imap (fun tid At => GB_AxB_dot2_count tid M Mask_comp At B1) Aslice1 in
  let heap1 := count_events C_counts0 in
  let ok := forallb is_some C_counts0 in
  (* lines 145-154 *)
  let cnvec := Z.to_nat (nvec B1) in
  let (info1, Chandle1) := GB_NEW cvlen cvdim (is_hyper B1) cnvec in
  let heap2 :=
    heap1 ++ match Chandle1 with
             | Some _ => [Malloc Header (Z.of_nat (S cnvec))]
             | None => []
             end in
  if negb ok || negb (GrB_Info_eqb info1 GrB_SUCCESS) then
    (* out of memory *)
    let (C_counts1, freed) := GB_FREE_ALL C_counts0 in
    mkOutcome info1 Chandle1 Aslice1 B1 M mask_applied_in C_counts1
              (heap2 ++ freed) [] []
  else
    match Chandle1 with
    | None =>
        (* not reached: GB_NEW has succeeded *)
        mkOutcome info1 None Aslice1 B1 M mask_applied_in C_counts0 heap2
                  [] []
    | Some C =>
      (* lines 156-179: the cumulative sums *)
      let (counts1, Cp1) :=
        scan_vectors cnvec (map (default []) C_counts0) (c_p C) in
      let (Cp2, nonempty) := GB_cumsum Cp1 cnvec in
      let cnz := default 0%Z (Cp2 !! cnvec) in
      (* lines 181-185: C->h = B->h *)
      let Ch := if is_hyper B1 then take cnvec (h B1) else c_h C in
      (* lines 187-189 *)
      let C_counts1 := <[0%nat := None]> (map Some counts1) in
      let heap3 :=
        heap2 ++ GB_FREE_MEMORY 0 (mjoin (map Some counts1 !! 0%nat)) in
      let C1 := {| c_vlen := c_vlen C ; c_vdim := c_vdim C ;
                   c_nvec := c_nvec C ; c_nvec_nonempty := nonempty ;
                   c_is_hyper := c_is_hyper C ; c_h := Ch ; c_p := Cp2 ;
                   c_slots := None ; c_magic := GB_MAGIC |} in
      (* lines 195-201 *)
      let '(info2, C2, allocated) := GB_ix_alloc C1 cnz in
      let heap4 := heap3 ++ allocated in
      if negb (GrB_Info_eqb info2 GrB_SUCCESS) then
        (* out of memory *)
        let (C_counts2, freed) := GB_FREE_ALL C_counts1 in
        mkOutcome info2 (Some C2) Aslice1 B1 M mask_applied_in
                  C_counts2 (heap4 ++ freed) [] []
      else
        (* lines 207-394: phase 2 *)
        let nthreads := length Aslice1 in
        let C_count_start := fun tid =>
          if (tid =? 0)%nat then None else mjoin (C_counts1 !! tid) in
        let C_count_end := fun tid =>
          if (tid =? nthreads - 1)%nat then None
          else mjoin (C_counts1 !! S tid) in
        let ranges1 :=
          imap (fun tid _ =>
                  map (thread_range Cp2 (C_count_start tid) (C_count_end tid))
                      (seq 0 cnvec)) Aslice1 in
        let stores1 :=
          imap (fun tid At =>
                  thread_stores Cp2 (C_count_start tid) (C_count_end tid)
                                M Mask_comp At B1) Aslice1 in
        let C3 :=
          set_slots C2 (option_map (fold_left store_at (concat stores1))
                                   (c_slots C2)) in
        (* lines 403-407 *)
        let (C_counts2, freed) := GB_FREE_ALL C_counts1 in
        mkOutcome GrB_SUCCESS (Some C3) Aslice1 B1 M (Some (is_some M))
                  C_counts2 (heap4 ++ freed) ranges1 stores1
    end.

(** The counts of phase 1 of all threads, and the entries of [C] vector
    by vector, within a vector thread by thread. *)
Definition phase1_counts (M : option (GrB_Matrix bool)) (Mask_comp : bool)
    (Aslice : list (GrB_Matrix TA)) (B : GrB_Matrix TB) : list (list Z) :=
  map (fun At => map (slice_count M Mask_comp At B)
                     (seq 0 (Z.to_nat (nvec B)))) Aslice.




End Driver.

(** ** What the claims are stated with *)


(** Two matrices agree on every field but the cached count. *)
Definition same_content {T} (X Y : GrB_Matrix T) : Prop :=
  vlen X = vlen Y /\ vdim X = vdim Y /\ nvec X = nvec Y
  /\ is_hyper X = is_hyper Y /\ h X = h Y
  /\ p X = p Y /\ i X = i Y /\ x X = x Y.


(** "A failing call releases its scratch, reports a status that is not
    success, produces no matrix and leaves the handle untouched." *)
Definition failure_contract {TA TB TC}
    (r : outcome (TA := TA) (TB := TB) (TC := TC))
    (Chandle_in : option (C_Matrix TC)) : Prop :=
  (forall tid, mallocs (Counts tid) (heap r) = frees (Counts tid) (heap r))
  /\ info r <> GrB_SUCCESS
  /\ Chandle r = Chandle_in.

(** Some allocation of a call with [nthreads] slices fails. *)
Definition some_failure (alloc : allocator) (nthreads : nat) : bool :=
  negb (forallb (count_alloc alloc) (seq 0 nthreads)
        && new_alloc alloc && ix_alloc alloc).

(** ** A small call

    [A] is the 2x2 identity pattern, cut into two slices of one vector
    each; [B] is the same matrix.  The semiring is the boolean one of the
    generated file. *)
Definition tiny_slice0 : GrB_Matrix bool :=
  mkMatrix 2 2 1 (-1) true [0%Z] [0%Z; 1%Z] [0%Z] [true].
Definition tiny_slice1 : GrB_Matrix bool :=
  mkMatrix 2 2 1 (-1) true [1%Z] [0%Z; 1%Z] [1%Z] [true].
Definition tiny_B : GrB_Matrix bool :=
  mkMatrix 2 2 2 (-1) false [] [0%Z; 1%Z; 2%Z] [0%Z; 1%Z] [true; true].

(** A matrix that the handle may hold before the call. *)
Definition old_C : C_Matrix bool :=
  mkC 1 1 1 1 false [] [0%Z; 1%Z] (Some [Some (0%nat, true)]) GB_MAGIC.

Definition tiny_call (alloc : allocator) (Chandle_in : option (C_Matrix bool))
    : outcome :=
  GB_AxB_dot2 LorFirstBool.GB_ADD LorFirstBool.GB_SAME LorFirstBool.GB_MULT
              LorFirstBool.GB_TERMINAL alloc (fun q => (Z.of_nat q - 77)%Z)
              Chandle_in None false [tiny_slice0; tiny_slice1] tiny_B None.

Definition every_alloc : allocator := mkAllocator (fun _ => true) true true.
Definition new_fails : allocator := mkAllocator (fun _ => true) false true.
Definition ix_fails : allocator := mkAllocator (fun _ => true) true false.
Definition count_fails : allocator :=
  mkAllocator (fun tid => negb (tid =? 1)%nat) true true.

(** ** The cached counts *)

Lemma cache_fields {T} (A X : GrB_Matrix T) :
  vlen (cache_nvec_nonempty A X) = vlen X
  /\ vdim (cache_nvec_nonempty A X) = vdim X
  /\ nvec (cache_nvec_nonempty A X) = nvec X
  /\ is_hyper (cache_nvec_nonempty A X) = is_hyper X
  /\ h (cache_nvec_nonempty A X) = h X
  /\ p (cache_nvec_nonempty A X) = p X
  /\ i (cache_nvec_nonempty A X) = i X
  /\ x (cache_nvec_nonempty A X) = x X.
Proof.
  unfold cache_nvec_nonempty. destruct (nvec_nonempty X <? 0)%Z;
    repeat split; reflexivity.
Qed.

Lemma cache_nvec {T} (A X : GrB_Matrix T) :
  nvec (cache_nvec_nonempty A X) = nvec X.
Proof. apply cache_fields. Qed.

Lemma cache_vector {T} (A X : GrB_Matrix T) k :
  GB_vector (cache_nvec_nonempty A X) k = GB_vector X k.
Proof.
  unfold cache_nvec_nonempty. now destruct (nvec_nonempty X <? 0)%Z.
Qed.

Lemma cache_vector_index {T} (A X : GrB_Matrix T) k :
  GB_vector_index (cache_nvec_nonempty A X) k = GB_vector_index X k.
Proof.
  unfold cache_nvec_nonempty. now destruct (nvec_nonempty X <? 0)%Z.
Qed.

Lemma cache_vectors {T} (A X : GrB_Matrix T) :
  GB_vectors (cache_nvec_nonempty A X) = GB_vectors X.
Proof.
  unfold cache_nvec_nonempty. now destruct (nvec_nonempty X <? 0)%Z.
Qed.

Lemma cache_selects M Mask_comp {T} (A X : GrB_Matrix T) k :
  selects M Mask_comp (cache_nvec_nonempty A X) k = selects M Mask_comp X k.
Proof. unfold selects. now rewrite cache_vector_index. Qed.

(** ** The cumulative sums *)

Section ScanFacts.

Local Open Scope Z_scope.

Lemma Zsum_cons a l : Zsum (a :: l) = a + Zsum l.
Proof. reflexivity. Qed.

Lemma Zsum_app l1 l2 : Zsum (l1 ++ l2) = Zsum l1 + Zsum l2.
Proof.
  induction l1 as [|a l1 IH]; cbn [app]; [reflexivity|].
  rewrite !Zsum_cons, IH. lia.
Qed.

Lemma Zsum_nonneg l : Forall (fun c => 0 <= c) l -> 0 <= Zsum l.
Proof.
  induction 1 as [|a l Ha _ IH]; [reflexivity|]. rewrite Zsum_cons. lia.
Qed.


Lemma int64_t_small z : 0 <= z <= INT64_MAX -> int64_t z = z.
Proof. intros H. apply int64_t_id. unfold is_int64, INT64_MAX in *. lia. Qed.

(** The loop over the threads leaves in [C_counts [tid][k]] the number of
    entries of the threads before [tid], and returns the sum. *)
Lemma scan_threads_spec k : forall counts s,
  0 <= s -> Forall (fun c => 0 <= c) (column k counts) ->
  s + total counts k <= INT64_MAX ->
  scan_threads k counts s
  = (imap (fun tid C_count => <[k := s + offset counts tid k]> C_count) counts,
     s + total counts k).
Proof.
  induction counts as [|C_count counts IH]; intros s Hs Hc Hmax.
  - cbn. unfold total. cbn. now rewrite Z.add_0_r.
  - cbn [scan_threads].
    assert (Ht : total (C_count :: counts) k
                 = default 0 (C_count !! k) + total counts k) by reflexivity.
    assert (Ho : forall tid, offset (C_count :: counts) (S tid) k
                 = default 0 (C_count !! k) + offset counts tid k)
      by reflexivity.
    rewrite Ht in Hmax. change (column k (C_count :: counts))
      with (default 0 (C_count !! k) :: column k counts) in Hc.
    apply Forall_cons in Hc as [Hc0 Hc].
    pose proof (Zsum_nonneg _ Hc) as Hpos. fold (total counts k) in Hpos.
    rewrite int64_t_small by lia.
    rewrite IH; [|lia|exact Hc|lia].
    f_equal; [|lia].
    cbn [imap]. f_equal.
    + change (offset (C_count :: counts) 0 k) with 0. now rewrite Z.add_0_r.
    + apply imap_ext. intros tid c _. cbn [compose]. rewrite Ho. f_equal. lia.
Qed.

Lemma lookup_map {X Y} (f : X -> Y) (l : list X) (n : nat) :
  map f l !! n = f <$> l !! n.
Proof. apply (list_lookup_fmap f l n). Qed.

Lemma column_nonneg cnvec counts k :
  counts_ok cnvec counts -> Forall (fun c => 0 <= c) (column k counts).
Proof.
  intros [H _]. unfold column. apply List.Forall_map.
  eapply List.Forall_impl; [|exact H]. cbn. intros C_count [_ Hc].
  destruct (C_count !! k) as [c|] eqn:E; cbn; [|lia].
  rewrite List.Forall_forall in Hc.
  apply Hc, list_elem_of_In, list_elem_of_lookup. eauto.
Qed.

Lemma total_nonneg cnvec counts k :
  counts_ok cnvec counts -> 0 <= total counts k.
Proof. intros H. apply Zsum_nonneg, (column_nonneg cnvec), H. Qed.

Lemma before_S counts k :
  before counts (S k) = before counts k + total counts k.
Proof.
  unfold before. rewrite seq_S, List.map_app, Zsum_app. cbn [map Nat.add].
  rewrite Zsum_cons. change (Zsum []) with 0. lia.
Qed.

Lemma before_mono cnvec counts k k' :
  counts_ok cnvec counts -> (k <= k')%nat ->
  0 <= before counts k <= before counts k'.
Proof.
  intros H Hk. induction Hk as [|k' Hk IH].
  - split; [|lia]. induction k as [|k IH]; [reflexivity|].
    rewrite before_S. pose proof (total_nonneg cnvec counts k H). lia.
  - rewrite before_S. pose proof (total_nonneg cnvec counts k' H). lia.
Qed.


Lemma total_bound cnvec counts k :
  counts_ok cnvec counts -> (k < cnvec)%nat ->
  before counts k + total counts k <= INT64_MAX.
Proof.
  intros H Hk. rewrite <- before_S.
  pose proof (before_mono cnvec counts (S k) cnvec H ltac:(lia)).
  destruct H as [_ H]. lia.
Qed.

(** The state of the loop over [k] after [K] vectors. *)
Definition scanned (K : nat) (counts : list (list Z)) (Cp : list Z)
    : list (list Z) * list Z :=
  (imap (fun tid C_count =>
           map (offset counts tid) (seq 0 K) ++ drop K C_count) counts,
   map (total counts) (seq 0 K) ++ drop K Cp).

Lemma column_scanned K counts Cp k :
  (K <= k)%nat -> column k (fst (scanned K counts Cp)) = column k counts.
Proof.
  intros Hk. unfold scanned, column. cbn [fst].
  change (map ?f (imap ?g ?l)) with (f <$> imap g l).
  rewrite fmap_imap.
  change (map ?f counts) with (f <$> counts).
  rewrite <- (imap_const (fun C_count => default 0 (C_count !! k)) counts).
  apply imap_ext. intros tid C_count _. cbn.
  rewrite lookup_app_r by (rewrite length_map, length_seq; lia).
  rewrite length_map, length_seq, lookup_drop. f_equal. f_equal. lia.
Qed.

Lemma scan_step K cnvec counts Cp :
  counts_ok cnvec counts -> (K < cnvec)%nat -> (cnvec < length Cp)%nat ->
  (let (C_counts', s) := scan_threads K (fst (scanned K counts Cp)) 0 in
   (C_counts', <[K := s]> (snd (scanned K counts Cp))))
  = scanned (S K) counts Cp.
Proof.
  intros Hok HK HCp.
  pose proof (column_scanned K counts Cp K (le_n _)) as Hcol.
  rewrite scan_threads_spec.
  2: lia.
  2: { rewrite Hcol. apply (column_nonneg cnvec), Hok. }
  2: { unfold total. rewrite Hcol. fold (total counts K).
       pose proof (total_bound cnvec counts K Hok HK).
       pose proof (before_mono cnvec counts 0 K Hok ltac:(lia)). lia. }
  assert (Hoff : forall tid,
            offset (fst (scanned K counts Cp)) tid K = offset counts tid K)
    by (intros tid; unfold offset; now rewrite Hcol).
  assert (Htot : total (fst (scanned K counts Cp)) K = total counts K)
    by (unfold total; now rewrite Hcol).
  rewrite Htot, Z.add_0_l.
  rewrite (imap_ext _ (fun tid C_count => <[K := offset counts tid K]> C_count))
    by (intros tid C_count _; now rewrite Hoff, Z.add_0_l).
  unfold scanned. cbn [fst snd]. f_equal.
  - apply list_eq. intros tid. rewrite !list_lookup_imap.
    destruct (counts !! tid) as [C_count|] eqn:E;
      cbn [fmap option_fmap option_map]; [|reflexivity].
    f_equal.
    assert (Hlen : length C_count = cnvec).
    { destruct Hok as [Hok _]. rewrite List.Forall_forall in Hok.
      apply Hok, list_elem_of_In, list_elem_of_lookup. eauto. }
    destruct (lookup_lt_is_Some_2 C_count K ltac:(lia)) as [c Hc].
    rewrite (drop_S _ _ _ Hc).
    replace K with (length (map (offset counts tid) (seq 0 K)) + 0)%nat at 1
      by (rewrite length_map, length_seq; lia).
    rewrite insert_app_r. cbn [insert list_insert].
    rewrite seq_S, List.map_app, <- app_assoc. reflexivity.
  - destruct (lookup_lt_is_Some_2 Cp K ltac:(lia)) as [c Hc].
    rewrite (drop_S _ _ _ Hc).
    replace K with (length (map (total counts) (seq 0 K)) + 0)%nat at 1
      by (rewrite length_map, length_seq; lia).
    rewrite insert_app_r. cbn [insert list_insert].
    rewrite seq_S, List.map_app, <- app_assoc. reflexivity.
Qed.

Lemma scan_loop K cnvec counts Cp :
  counts_ok cnvec counts -> (K <= cnvec)%nat -> (cnvec < length Cp)%nat ->
  fold_left (fun st k =>
               let (C_counts', s) := scan_threads k (fst st) 0 in
               (C_counts', <[k := s]> (snd st)))
            (seq 0 K) (counts, Cp)
  = scanned K counts Cp.
Proof.
  intros Hok HK HCp. induction K as [|K IH].
  - unfold scanned. cbn. f_equal.
    apply list_eq. intros tid. rewrite list_lookup_imap.
    now destruct (counts !! tid).
  - rewrite seq_S, fold_left_app, IH by lia. cbn [fold_left Nat.add].
    now apply (scan_step K cnvec).
Qed.

(** Lines 162-175 leave the offsets of the threads in the scratch arrays
    and the number of entries of each vector in [Cp], with [Cp [cnvec]]
    zero. *)
Lemma scan_vectors_spec cnvec counts Cp :
  counts_ok cnvec counts -> length Cp = S cnvec ->
  scan_vectors cnvec counts Cp
  = (imap (fun tid _ => map (offset counts tid) (seq 0 cnvec)) counts,
     map (total counts) (seq 0 cnvec) ++ [0]).
Proof.
  intros Hok HCp. unfold scan_vectors.
  rewrite (scan_loop cnvec cnvec counts Cp Hok (le_n _)) by lia.
  unfold scanned. f_equal.
  - apply imap_ext. intros tid C_count E.
    assert (Hlen : length C_count = cnvec).
    { destruct Hok as [Hok _]. rewrite List.Forall_forall in Hok.
      apply Hok, list_elem_of_In, list_elem_of_lookup. eauto. }
    rewrite drop_ge by lia. apply app_nil_r.
  - destruct (lookup_lt_is_Some_2 Cp cnvec ltac:(lia)) as [c Hc].
    rewrite (drop_S _ _ _ Hc), drop_ge by lia.
    replace cnvec with (length (map (total counts) (seq 0 cnvec)) + 0)%nat
      at 1 by (rewrite length_map, length_seq; lia).
    now rewrite insert_app_r.
Qed.






End ScanFacts.

(** ** Stores to disjoint positions *)

Section Layout.

Context {X : Type}.

Local Open Scope nat_scope.



(** Blocks that start where the one before ends are placed one after the
    other. *)
Lemma flat_map_place (g : nat -> nat) (F : nat -> list X) n : forall a,
  (forall j, a <= j < a + n -> g (S j) = g j + length (F j)) ->
  flat_map (fun j => imap (fun d e => (g j + d, e)) (F j)) (seq a n)
  = place (g a) (map F (seq a n)).
Proof.
  induction n as [|n IH]; intros a Hg; cbn [seq flat_map map place];
    [reflexivity|].
  f_equal. rewrite IH by (intros j Hj; apply Hg; lia).
  f_equal. apply Hg. lia.
Qed.


(** The order of two nested loops does not matter for what they store. *)
Lemma flat_map_app_perm {I Y} (a b : I -> list Y) (l : list I) :
  Permutation (flat_map (fun k => a k ++ b k) l)
              (flat_map a l ++ flat_map b l).
Proof.
  induction l as [|k l IH]; cbn [flat_map]; [constructor|].
  rewrite <- !app_assoc. apply Permutation_app_head.
  rewrite IH. rewrite !app_assoc. apply Permutation_app_tail.
  apply Permutation_app_comm.
Qed.

Lemma flat_map_swap {I J Y} (f : I -> J -> list Y) (ts : list I) (ks : list J) :
  Permutation (flat_map (fun t => flat_map (fun k => f t k) ks) ts)
              (flat_map (fun k => flat_map (fun t => f t k) ts) ks).
Proof.
  induction ts as [|t ts IH]; cbn [flat_map].
  - induction ks as [|k ks IHk]; cbn; [constructor | exact IHk].
  - rewrite IH. symmetry. apply flat_map_app_perm.
Qed.







End Layout.

(** ** The two phases *)

Section PhaseFacts.

Context {TA TB TC : Type}.
Variable add : TC -> TC -> TC.
Variable same : TC -> TC -> bool.
Variable mult : TA -> TB -> TC.
Variable terminal : option TC.
Variable M : option (GrB_Matrix bool).
Variable Mask_comp : bool.
Variable Aslice : list (GrB_Matrix TA).
Variable B : GrB_Matrix TB.

Local Abbreviation cnvec := (Z.to_nat (nvec B)).
Local Abbreviation counts := (phase1_counts M Mask_comp Aslice B).
Local Abbreviation entries_of := (slice_entries add same mult terminal M Mask_comp).

Local Open Scope Z_scope.

Lemma slice_count_cache (A0 At : GrB_Matrix TA) k :
  slice_count M Mask_comp (cache_nvec_nonempty A0 At)
              (cache_nvec_nonempty B B) k
  = slice_count M Mask_comp At B k.
Proof.
  unfold slice_count.
  now rewrite cache_vectors, cache_vector, (cache_selects M Mask_comp B B k).
Qed.





















End PhaseFacts.

(** ** The heap *)

Section HeapFacts.

Local Open Scope nat_scope.

Lemma mallocs_app b h1 h2 : mallocs b (h1 ++ h2) = mallocs b h1 + mallocs b h2.
Proof. unfold mallocs. now rewrite List.filter_app, length_app. Qed.

Lemma frees_app b h1 h2 : frees b (h1 ++ h2) = frees b h1 + frees b h2.
Proof. unfold frees. now rewrite List.filter_app, length_app. Qed.

(** The scratch pointer of thread [tid] is not NULL. *)
Definition holds (C_counts : list (option (list Z))) (tid : nat) : bool :=
  is_some (mjoin (C_counts !! tid)).

Lemma filter_in_seq (P : event -> bool) (G : nat -> list event) tid n :
  (forall j, j <> tid -> List.filter P (G j) = []) ->
  length (List.filter P (flat_map G (seq 0 n)))
  = if tid <? n then length (List.filter P (G tid)) else 0.
Proof.
  intros HG. induction n as [|n IH]; [reflexivity|].
  rewrite seq_S, flat_map_app, List.filter_app, length_app, IH.
  cbn [flat_map Nat.add]. rewrite app_nil_r.
  destruct (Nat.eq_dec n tid) as [->|Hne].
  - destruct (Nat.ltb_spec tid tid), (Nat.ltb_spec tid (S tid)); lia.
  - rewrite (HG n Hne). cbn [length].
    destruct (Nat.ltb_spec tid n), (Nat.ltb_spec tid (S n)); lia.
Qed.

Lemma block_eqb_refl b : block_eqb b b = true.
Proof. destruct b; cbn; auto using Nat.eqb_refl. Qed.

Lemma mallocs_count_events C_counts b :
  mallocs b (count_events C_counts)
  = match b with
    | Counts tid => if holds C_counts tid then 1 else 0
    | _ => 0
    end
  /\ frees b (count_events C_counts) = 0.
Proof.
  unfold mallocs, frees, count_events. rewrite flat_map_enumerate. split.
  - destruct b as [tid| |].
    + rewrite (filter_in_seq _ _ tid).
      * unfold holds.
        destruct (Nat.ltb_spec tid (length C_counts)) as [Hlt|Hge].
        -- destruct (C_counts !! tid) as [[c|]|] eqn:E; cbn;
             rewrite ?Nat.eqb_refl; reflexivity.
        -- now rewrite (lookup_ge_None_2 C_counts tid Hge).
      * intros j Hj. destruct (C_counts !! j) as [[c|]|]; cbn; auto.
        destruct (Nat.eqb_spec tid j); [lia | reflexivity].
    + induction (seq 0 (length C_counts)) as [|j l IH]; [reflexivity|].
      cbn [flat_map]. rewrite List.filter_app, length_app, IH.
      now destruct (C_counts !! j) as [[c|]|].
    + induction (seq 0 (length C_counts)) as [|j l IH]; [reflexivity|].
      cbn [flat_map]. rewrite List.filter_app, length_app, IH.
      now destruct (C_counts !! j) as [[c|]|].
  - induction (seq 0 (length C_counts)) as [|j l IH]; [reflexivity|].
    cbn [flat_map]. rewrite List.filter_app, length_app, IH.
    now destruct (C_counts !! j) as [[c|]|].
Qed.

Lemma frees_FREE_ALL C_counts b :
  frees b (snd (GB_FREE_ALL C_counts))
  = match b with
    | Counts tid => if holds C_counts tid then 1 else 0
    | _ => 0
    end
  /\ mallocs b (snd (GB_FREE_ALL C_counts)) = 0.
Proof.
  unfold mallocs, frees, GB_FREE_ALL. cbn [snd].
  rewrite flat_map_enumerate. split.
  - destruct b as [tid| |].
    + rewrite (filter_in_seq _ _ tid).
      * unfold holds.
        destruct (Nat.ltb_spec tid (length C_counts)) as [Hlt|Hge].
        -- destruct (C_counts !! tid) as [[c|]|] eqn:E; cbn;
             rewrite ?Nat.eqb_refl; reflexivity.
        -- now rewrite (lookup_ge_None_2 C_counts tid Hge).
      * intros j Hj. destruct (C_counts !! j) as [[c|]|]; cbn; auto.
        destruct (Nat.eqb_spec tid j); [lia | reflexivity].
    + induction (seq 0 (length C_counts)) as [|j l IH]; [reflexivity|].
      cbn [flat_map]. rewrite List.filter_app, length_app, IH.
      now destruct (C_counts !! j) as [[c|]|].
    + induction (seq 0 (length C_counts)) as [|j l IH]; [reflexivity|].
      cbn [flat_map]. rewrite List.filter_app, length_app, IH.
      now destruct (C_counts !! j) as [[c|]|].
  - induction (seq 0 (length C_counts)) as [|j l IH]; [reflexivity|].
    cbn [flat_map]. rewrite List.filter_app, length_app, IH.
    now destruct (C_counts !! j) as [[c|]|].
Qed.

(** The loops over the threads and the vectors keep the number of
    scratch arrays. *)
Lemma scan_threads_length k : forall cs s,
  length (fst (scan_threads k cs s)) = length cs.
Proof.
  induction cs as [|c0 cs IH]; intros s; [reflexivity|].
  cbn [scan_threads]. specialize (IH (int64_t (s + default 0%Z (c0 !! k)))).
  destruct (scan_threads k cs _). cbn [fst length] in *. now rewrite IH.
Qed.

Lemma scan_vectors_length cnvec cs Cp :
  length (fst (scan_vectors cnvec cs Cp)) = length cs.
Proof.
  unfold scan_vectors.
  assert (H : forall l (st : list (list Z) * list Z),
            length (fst (fold_left
                           (fun (st : list (list Z) * list Z) k =>
                              let (cs', s) :=
                                scan_threads k (fst st) 0%Z in
                              (cs', <[k := s]> (snd st))) l st))
            = length (fst st)).
  { induction l as [|k l IH]; intros st; [reflexivity|].
    cbn [fold_left]. rewrite IH.
    pose proof (scan_threads_length k (fst st) 0%Z) as Hl.
    now destruct (scan_threads k (fst st) 0%Z). }
  specialize (H (seq 0 cnvec) (cs, Cp)).
  now destruct (fold_left _ _ _).
Qed.

Lemma holds_all (cs : list (option (list Z))) tid :
  forallb is_some cs = true -> holds cs tid = (tid <? length cs).
Proof.
  intros H. unfold holds.
  destruct (Nat.ltb_spec tid (length cs)) as [Hlt|Hge].
  - destruct (lookup_lt_is_Some_2 cs tid Hlt) as [o Ho]. rewrite Ho.
    rewrite forallb_forall in H.
    specialize (H o ltac:(apply list_elem_of_In, list_elem_of_lookup; eauto)).
    now destruct o.
  - now rewrite (lookup_ge_None_2 cs tid Hge).
Qed.

Lemma holds_after_free0 (l : list (list Z)) tid :
  holds (<[0 := None]> (map Some l)) tid
  = negb (tid =? 0) && (tid <? length l).
Proof.
  unfold holds. destruct (Nat.eqb_spec tid 0) as [->|Hne]; cbn [negb andb].
  - destruct l; reflexivity.
  - rewrite list_lookup_insert_ne by lia. rewrite lookup_map.
    destruct (Nat.ltb_spec tid (length l)) as [Hlt|Hge].
    + destruct (lookup_lt_is_Some_2 l tid Hlt) as [c Hc]. now rewrite Hc.
    + now rewrite (lookup_ge_None_2 l tid Hge).
Qed.

Lemma frees_free0 (l : list (list Z)) b :
  frees b (GB_FREE_MEMORY 0 (mjoin (map Some l !! 0)))
  = match b with
    | Counts tid => if (tid =? 0) && (0 <? length l) then 1 else 0
    | _ => 0
    end
  /\ mallocs b (GB_FREE_MEMORY 0 (mjoin (map Some l !! 0))) = 0.
Proof.
  destruct l as [|c l]; cbn; [now destruct b as [[|tid]| |]|].
  split; [|reflexivity]. now destruct b as [[|tid]| |].
Qed.

End HeapFacts.

(** ** The driver on its paths *)

Section DriverFacts.

Context {TA TB TC : Type}.
Variable add : TC -> TC -> TC.
Variable same : TC -> TC -> bool.
Variable mult : TA -> TB -> TC.
Variable terminal : option TC.
Variable alloc : allocator.
Variable junk : nat -> Z.
Variable Chandle_in : option (C_Matrix TC).
Variable M : option (GrB_Matrix bool).
Variable Mask_comp : bool.
Variable Aslice : list (GrB_Matrix TA).
Variable B : GrB_Matrix TB.
Variable mask_applied_in : option bool.

Local Abbreviation cnvec := (Z.to_nat (nvec B)).
Local Abbreviation counts := (phase1_counts M Mask_comp Aslice B).
Local Abbreviation A0 := (hd empty_matrix Aslice).
Local Abbreviation call :=
  (GB_AxB_dot2 add same mult terminal alloc junk Chandle_in M Mask_comp
               Aslice B mask_applied_in).

Local Open Scope Z_scope.

(** The scratch pointers after phase 1. *)
Lemma C_counts_phase1 :
  imap (fun tid At =>
          GB_AxB_dot2_count alloc tid M Mask_comp At (cache_nvec_nonempty B B))
       (map (cache_nvec_nonempty A0) Aslice)
  = imap (fun tid C_count => if count_alloc alloc tid then Some C_count else None)
         counts.
Proof.
  apply list_eq. intros tid. rewrite !list_lookup_imap.
  unfold phase1_counts. rewrite !lookup_map.
  destruct (Aslice !! tid) as [At|]; [|reflexivity].
  cbn [fmap option_fmap option_map]. unfold GB_AxB_dot2_count.
  rewrite cache_nvec. destruct (count_alloc alloc tid); [|reflexivity].
  do 2 f_equal. apply List.map_ext. intros k. apply slice_count_cache.
Qed.

Lemma C_counts_all_ok :
  (forall tid, (tid < length Aslice)%nat -> count_alloc alloc tid = true) ->
  imap (fun tid C_count => if count_alloc alloc tid then Some C_count else None)
       counts
  = map Some counts.
Proof.
  intros H. apply list_eq. intros tid. rewrite list_lookup_imap, lookup_map.
  destruct (counts !! tid) as [C_count|] eqn:E; [|reflexivity].
  cbn. rewrite H; [reflexivity|].
  apply lookup_lt_Some in E. unfold phase1_counts in E.
  now rewrite length_map in E.
Qed.

(** The inputs after the call, on every path. *)
Lemma dot2_inputs :
  Aslice_out call = map (cache_nvec_nonempty A0) Aslice
  /\ B_out call = cache_nvec_nonempty B B
  /\ M_out call = M.
Proof.
  unfold GB_AxB_dot2, GB_ix_alloc.
  destruct (GB_NEW alloc junk _ _ _ _) as [info1 [C|]];
    destruct (negb _ || negb _); cbn;
    repeat match goal with
           | |- context [let (_, _) := ?e in _] => destruct e
           | |- context [if ?c then _ else _] => destruct c
           end; cbn; auto.
Qed.





(** On every path every scratch array that was allocated has been freed,
    once, when the call returns, and every scratch pointer is NULL. *)
Lemma scratch_released :
  (forall tid, mallocs (Counts tid) (heap call) = frees (Counts tid) (heap call))
  /\ Forall (fun ptr => ptr = None) (C_counts call).
Proof.
  assert (Hnone : forall cs : list (option (list Z)),
            Forall (fun ptr => ptr = None) (fst (GB_FREE_ALL cs))).
  { intros cs. unfold GB_FREE_ALL. cbn [fst].
    apply List.Forall_map, List.Forall_forall. reflexivity. }
  unfold GB_AxB_dot2. rewrite C_counts_phase1.
  set (cs0 := imap _ counts).
  unfold GB_NEW. destruct (new_alloc alloc).
  - cbn [GrB_Info_eqb negb]. rewrite orb_false_r.
    destruct (forallb is_some cs0) eqn:Eok; cbn [negb].
    + destruct (scan_vectors _ _ _) as [counts1 Cp1] eqn:Escan.
      destruct (GB_cumsum Cp1 _) as [Cp2 nonempty].
      assert (Hlen : length counts1 = length cs0).
      { pose proof (scan_vectors_length (Z.to_nat (nvec (cache_nvec_nonempty B B)))
                      (map (default []) cs0)
                      (map junk (seq 0 (S (Z.to_nat (nvec (cache_nvec_nonempty B B))))))) as H.
        cbn [c_p] in Escan. rewrite Escan in H. cbn [fst] in H.
        now rewrite H, length_map. }
      assert (Hbal : forall tid more,
                mallocs (Counts tid) more = 0%nat ->
                frees (Counts tid) more = 0%nat ->
                mallocs (Counts tid)
                  (((count_events cs0 ++ [Malloc Header (Z.of_nat (S (Z.to_nat (nvec (cache_nvec_nonempty B B)))))])
                    ++ GB_FREE_MEMORY 0 (mjoin (map Some counts1 !! 0%nat)))
                   ++ more
                   ++ snd (GB_FREE_ALL (<[0%nat := None]> (map Some counts1))))
                = frees (Counts tid)
                  (((count_events cs0 ++ [Malloc Header (Z.of_nat (S (Z.to_nat (nvec (cache_nvec_nonempty B B)))))])
                    ++ GB_FREE_MEMORY 0 (mjoin (map Some counts1 !! 0%nat)))
                   ++ more
                   ++ snd (GB_FREE_ALL (<[0%nat := None]> (map Some counts1))))).
      { intros tid more Hm Hf.
        rewrite !mallocs_app, !frees_app, Hm, Hf.
        rewrite (proj1 (mallocs_count_events cs0 (Counts tid))).
        rewrite (proj2 (mallocs_count_events cs0 (Counts tid))).
        rewrite (proj1 (frees_free0 counts1 (Counts tid))).
        rewrite (proj2 (frees_free0 counts1 (Counts tid))).
        rewrite (proj1 (frees_FREE_ALL _ (Counts tid))).
        rewrite (proj2 (frees_FREE_ALL _ (Counts tid))).
        rewrite holds_after_free0, (holds_all cs0 tid Eok), Hlen.
        cbn [mallocs frees List.filter length].
        destruct (Nat.ltb_spec 0 (length cs0));
          destruct (Nat.ltb_spec tid (length cs0));
          destruct (Nat.eqb_spec tid 0); cbn; lia. }
      unfold GB_ix_alloc.
      destruct (ix_alloc alloc); cbn [GrB_Info_eqb negb];
        rewrite (surjective_pairing (GB_FREE_ALL _)); cbn [heap C_counts].
      * split; [|apply Hnone]. intros tid.
        rewrite <- (app_assoc _ [Malloc Entries _]). now apply Hbal.
      * split; [|apply Hnone]. intros tid.
        rewrite <- (app_assoc _ []). now apply Hbal.
    + rewrite (surjective_pairing (GB_FREE_ALL _)); cbn [heap C_counts].
      split; [|apply Hnone]. intros tid.
      rewrite !mallocs_app, !frees_app.
      rewrite (proj1 (mallocs_count_events cs0 (Counts tid))).
      rewrite (proj2 (mallocs_count_events cs0 (Counts tid))).
      rewrite (proj1 (frees_FREE_ALL _ (Counts tid))).
      rewrite (proj2 (frees_FREE_ALL _ (Counts tid))).
      cbn. lia.
  - cbn [GrB_Info_eqb negb]. rewrite orb_true_r.
    rewrite (surjective_pairing (GB_FREE_ALL _)); cbn [heap C_counts].
    split; [|apply Hnone]. intros tid.
    rewrite !mallocs_app, !frees_app.
    rewrite (proj1 (mallocs_count_events cs0 (Counts tid))).
    rewrite (proj2 (mallocs_count_events cs0 (Counts tid))).
    rewrite (proj1 (frees_FREE_ALL _ (Counts tid))).
    rewrite (proj2 (frees_FREE_ALL _ (Counts tid))).
    cbn. lia.
Qed.

(** When GB_NEW fails the call returns its status, and the handle holds
    NULL. *)
Lemma dot2_new_fails :
  new_alloc alloc = false ->
  info call = GrB_OUT_OF_MEMORY /\ Chandle call = None
  /\ mask_applied call = mask_applied_in /\ stores call = [].
Proof.
  intros Hnew. unfold GB_AxB_dot2, GB_NEW. rewrite Hnew.
  cbn [GrB_Info_eqb negb]. rewrite orb_true_r.
  rewrite (surjective_pairing (GB_FREE_ALL _)). cbn. auto.
Qed.

(** When GB_ix_alloc fails the call returns its status. *)
Lemma dot2_ix_fails :
  (forall tid, (tid < length Aslice)%nat -> count_alloc alloc tid = true) ->
  new_alloc alloc = true -> ix_alloc alloc = false ->
  info call = GrB_OUT_OF_MEMORY
  /\ mask_applied call = mask_applied_in /\ stores call = [].
Proof.
  intros Hcount Hnew Hix. unfold GB_AxB_dot2, GB_NEW.
  rewrite C_counts_phase1, (C_counts_all_ok Hcount), Hnew.
  assert (Hall : forallb is_some (map Some counts) = true)
    by (apply forallb_forall; intros o Ho; apply in_map_iff in Ho as [c [<- _]];
        reflexivity).
  rewrite Hall. cbn [negb orb GrB_Info_eqb].
  destruct (scan_vectors _ _ _) as [counts1 Cp1].
  destruct (GB_cumsum Cp1 _) as [Cp2 nonempty].
  unfold GB_ix_alloc. rewrite Hix. cbn [negb GrB_Info_eqb].
  rewrite (surjective_pairing (GB_FREE_ALL _)). cbn. auto.
Qed.

(** When a count of phase 1 fails and GB_NEW succeeds, the call returns
    early with the status of GB_NEW and leaves the new header, which has
    not been initialised, in the handle. *)
Lemma dot2_count_fails tid :
  (tid < length Aslice)%nat -> count_alloc alloc tid = false ->
  new_alloc alloc = true ->
  info call = GrB_SUCCESS
  /\ (exists C, Chandle call = Some C /\ c_magic C = GB_MAGIC2
                /\ c_slots C = None)
  /\ mask_applied call = mask_applied_in /\ stores call = [].
Proof.
  intros Htid Hcount Hnew. unfold GB_AxB_dot2, GB_NEW.
  rewrite C_counts_phase1, Hnew.
  assert (Hall : forallb is_some
                   (imap (fun tid C_count =>
                            if count_alloc alloc tid then Some C_count else None)
                         counts) = false).
  { apply not_true_is_false. intros H. rewrite forallb_forall in H.
    assert (Hlt : (tid < length counts)%nat)
      by (unfold phase1_counts; now rewrite length_map).
    destruct (lookup_lt_is_Some_2 counts tid Hlt) as [c Hc].
    specialize (H None). cbn in H. apply Bool.diff_false_true, H.
    apply list_elem_of_In, list_elem_of_lookup. exists tid.
    now rewrite list_lookup_imap, Hc, Hcount. }
  rewrite Hall. cbn [negb orb].
  rewrite (surjective_pairing (GB_FREE_ALL _)). cbn. eauto 10.
Qed.

Lemma some_count_fails n :
  forallb (count_alloc alloc) (seq 0 n) = false ->
  exists tid, (tid < n)%nat /\ count_alloc alloc tid = false.
Proof.
  induction n as [|n IH]; [discriminate|].
  rewrite seq_S, forallb_app. cbn [forallb Nat.add]. rewrite andb_true_r.
  destruct (forallb (count_alloc alloc) (seq 0 n)); cbn [andb].
  - intros H. exists n. split; [lia | exact H].
  - intros _. destruct (IH eq_refl) as [tid [Ht Hc]]. exists tid.
    split; [lia | exact Hc].
Qed.

Lemma all_counts_succeed n :
  forallb (count_alloc alloc) (seq 0 n) = true ->
  forall tid, (tid < n)%nat -> count_alloc alloc tid = true.
Proof.
  rewrite forallb_forall. intros H tid Ht. apply H, in_seq. lia.
Qed.

(** A call in which an allocation fails stores nothing in [C] and leaves
    [*mask_applied] alone. *)
Lemma dot2_fails :
  some_failure alloc (length Aslice) = true ->
  mask_applied call = mask_applied_in /\ stores call = [].
Proof.
  unfold some_failure. rewrite negb_true_iff, !andb_false_iff.
  intros [[Hc|Hn]|Hi].
  - destruct (new_alloc alloc) eqn:Hnew; [|apply dot2_new_fails, Hnew].
    destruct (some_count_fails _ Hc) as [tid [Ht Hf]].
    apply (dot2_count_fails tid Ht Hf Hnew).
  - apply dot2_new_fails, Hn.
  - destruct (new_alloc alloc) eqn:Hnew; [|apply dot2_new_fails, Hnew].
    destruct (forallb (count_alloc alloc) (seq 0 (length Aslice))) eqn:Hc.
    + apply (dot2_ix_fails (all_counts_succeed _ Hc) Hnew Hi).
    + destruct (some_count_fails _ Hc) as [tid [Ht Hf]].
      apply (dot2_count_fails tid Ht Hf Hnew).
Qed.



(** ** The claims about the driver *)



(** C5, as the code has it.  In every call in which an allocation fails,
    every scratch array that was allocated has been freed when the call
    returns, nothing has been stored into [C] and [*mask_applied] is as it
    was.  When the allocation that fails is that of GB_NEW or of
    GB_ix_alloc the call returns GrB_OUT_OF_MEMORY.  The handle is always
    written: it is set to NULL on entry, whatever it held, and it holds
    NULL when GB_NEW fails. *)
Theorem failure_releases_scratch :
  some_failure alloc (length Aslice) = true ->
  (forall tid,
      mallocs (Counts tid) (heap call) = frees (Counts tid) (heap call))
  /\ Forall (fun ptr => ptr = None) (C_counts call)
  /\ mask_applied call = mask_applied_in
  /\ stores call = []
  /\ (new_alloc alloc = false ->
      info call = GrB_OUT_OF_MEMORY /\ Chandle call = None)
  /\ (forallb (count_alloc alloc) (seq 0 (length Aslice)) = true ->
      new_alloc alloc = true -> ix_alloc alloc = false ->
      info call = GrB_OUT_OF_MEMORY).
Proof.
  intros Hfail.
  destruct scratch_released as [Hbal Hnull].
  destruct (dot2_fails Hfail) as [Hmask Hstores].
  repeat split; auto.
  - now apply dot2_new_fails.
  - now apply dot2_new_fails.
  - intros Hc Hn Hi.
    apply (dot2_ix_fails (all_counts_succeed _ Hc) Hn Hi).
Qed.


(** ** More about the driver *)

Lemma mallocs_one b b' n :
  (mallocs b [Malloc b' n] <= 1)%nat /\ frees b [Malloc b' n] = 0%nat.
Proof. unfold mallocs, frees. cbn. destruct (block_eqb b b'); cbn; lia. Qed.

Lemma count_events_le cs b :
  (mallocs b (count_events cs) <= 1)%nat.
Proof.
  rewrite (proj1 (mallocs_count_events cs b)).
  destruct b as [tid| |]; [destruct (holds cs tid)|..]; lia.
Qed.

Lemma frees_not_counts cs b :
  (forall tid, b <> Counts tid) ->
  frees b (snd (GB_FREE_ALL cs)) = 0%nat
  /\ forall l : list (list Z),
       frees b (GB_FREE_MEMORY 0 (mjoin (map Some l !! 0%nat))) = 0%nat.
Proof.
  intros Hb. split.
  - rewrite (proj1 (frees_FREE_ALL cs b)).
    destruct b as [tid| |]; [now destruct (Hb tid)|reflexivity..].
  - intros l. rewrite (proj1 (frees_free0 l b)).
    destruct b as [tid| |]; [now destruct (Hb tid)|reflexivity..].
Qed.

(** What the call allocates and frees, block by block, on every path. *)
Lemma heap_counts b :
  (mallocs b (heap call) <= 1)%nat
  /\ ((forall tid, b <> Counts tid) -> frees b (heap call) = 0%nat).
Proof.
  unfold GB_AxB_dot2. rewrite C_counts_phase1.
  set (cs0 := imap _ counts).
  pose proof (count_events_le cs0 b) as Hc.
  pose proof (proj2 (mallocs_count_events cs0 b)) as Hcf.
  unfold GB_NEW. destruct (new_alloc alloc).
  - cbn [GrB_Info_eqb negb]. rewrite orb_false_r.
    destruct (forallb is_some cs0) eqn:Eok; cbn [negb].
    + destruct (scan_vectors _ _ _) as [counts1 Cp1] eqn:Escan.
      destruct (GB_cumsum Cp1 _) as [Cp2 nonempty].
      unfold GB_ix_alloc.
      destruct (ix_alloc alloc); cbn [GrB_Info_eqb negb];
        rewrite (surjective_pairing (GB_FREE_ALL _)); cbn [heap];
        rewrite !mallocs_app, !frees_app, Hcf;
        rewrite (proj2 (frees_free0 counts1 b));
        rewrite (proj2 (frees_FREE_ALL _ b)).
      * destruct b as [tid| |]; cbn -[count_events GB_FREE_ALL GB_FREE_MEMORY].
        -- split; [lia|]. intros H. now destruct (H tid).
        -- rewrite (proj1 (mallocs_count_events cs0 Header)).
           split; [cbn; lia|]. intros H.
           destruct (frees_not_counts (<[0%nat:=None]> (map Some counts1))
                       Header H) as [-> ->].
           reflexivity.
        -- rewrite (proj1 (mallocs_count_events cs0 Entries)).
           split; [cbn; lia|]. intros H.
           destruct (frees_not_counts (<[0%nat:=None]> (map Some counts1))
                       Entries H) as [-> ->].
           reflexivity.
      * destruct b as [tid| |]; cbn -[count_events GB_FREE_ALL GB_FREE_MEMORY].
        -- split; [lia|]. intros H. now destruct (H tid).
        -- rewrite (proj1 (mallocs_count_events cs0 Header)).
           split; [cbn; lia|]. intros H.
           destruct (frees_not_counts (<[0%nat:=None]> (map Some counts1))
                       Header H) as [-> ->].
           reflexivity.
        -- rewrite (proj1 (mallocs_count_events cs0 Entries)).
           split; [cbn; lia|]. intros H.
           destruct (frees_not_counts (<[0%nat:=None]> (map Some counts1))
                       Entries H) as [-> ->].
           reflexivity.
    + rewrite (surjective_pairing (GB_FREE_ALL _)); cbn [heap].
      rewrite !mallocs_app, !frees_app, Hcf.
      rewrite (proj2 (frees_FREE_ALL _ b)).
      destruct (mallocs_one b Header
                  (Z.of_nat (S (Z.to_nat (nvec (cache_nvec_nonempty B B))))))
        as [Hm ->].
      destruct b as [tid| |].
      * split; [cbn in *; lia|]. intros H. now destruct (H tid).
      * rewrite (proj1 (mallocs_count_events cs0 Header)) in *.
        split; [cbn; lia|]. intros H.
        destruct (frees_not_counts cs0 Header H) as [-> _]. reflexivity.
      * rewrite (proj1 (mallocs_count_events cs0 Entries)) in *.
        split; [cbn; lia|]. intros H.
        destruct (frees_not_counts cs0 Entries H) as [-> _]. reflexivity.
  - cbn [GrB_Info_eqb negb]. rewrite orb_true_r.
    rewrite (surjective_pairing (GB_FREE_ALL _)); cbn [heap].
    rewrite !mallocs_app, !frees_app, Hcf.
    rewrite (proj2 (frees_FREE_ALL _ b)). cbn [mallocs frees List.filter length].
    split; [lia|]. intros H.
    destruct (frees_not_counts cs0 b H) as [-> _]. reflexivity.
Qed.

(** On every path, the successful one included, every scratch array that
    phase 1 allocated has been freed when the call returns, exactly once,
    although the array of thread 0 is freed before phase 2 and
    [GB_FREE_ALL] goes over all threads afterwards; every scratch pointer
    is NULL.  The call allocates the header and the arrays of [C] at most
    once and frees neither, also when it fails. *)
Theorem scratch_freed_once :
  (forall tid,
      mallocs (Counts tid) (heap call) = frees (Counts tid) (heap call)
      /\ (frees (Counts tid) (heap call) <= 1)%nat)
  /\ Forall (fun ptr => ptr = None) (C_counts call)
  /\ (mallocs Header (heap call) <= 1)%nat
  /\ (mallocs Entries (heap call) <= 1)%nat
  /\ frees Header (heap call) = 0%nat
  /\ frees Entries (heap call) = 0%nat.
Proof.
  destruct scratch_released as [Hbal Hnull].
  split; [|split; [exact Hnull|]].
  - intros tid. split; [apply Hbal|]. rewrite <- Hbal. apply heap_counts.
  - split; [apply (heap_counts Header)|].
    split; [apply (heap_counts Entries)|].
    split; [apply (heap_counts Header) | apply (heap_counts Entries)];
      discriminate.
Qed.


(** The branch of lines 149-154 when only a count has failed.  The call
    frees the scratch, runs no phase 2 and leaves [*mask_applied] as it
    was; it returns the status of GB_NEW, which is GrB_SUCCESS, and the
    handle holds the header that GB_NEW made, whose [Cp] has not been
    written and which has no arrays. *)
Theorem count_failure_status tid :
  (tid < length Aslice)%nat -> count_alloc alloc tid = false ->
  new_alloc alloc = true ->
  info call = GrB_SUCCESS
  /\ (exists C, Chandle call = Some C /\ c_magic C = GB_MAGIC2
                /\ c_slots C = None
                /\ c_p C = map junk (seq 0 (S cnvec)))
  /\ mask_applied call = mask_applied_in
  /\ stores call = [] /\ ranges call = []
  /\ mallocs Entries (heap call) = 0%nat
  /\ Forall (fun ptr => ptr = None) (C_counts call).
Proof.
  intros Htid Hcount Hnew.
  pose proof (proj2 scratch_released) as Hnull. revert Hnull.
  unfold GB_AxB_dot2, GB_NEW.
  rewrite C_counts_phase1, Hnew.
  assert (Hall : forallb is_some
                   (imap (fun tid C_count =>
                            if count_alloc alloc tid then Some C_count else None)
                         counts) = false).
  { apply not_true_is_false. intros H. rewrite forallb_forall in H.
    assert (Hlt : (tid < length counts)%nat)
      by (unfold phase1_counts; now rewrite length_map).
    destruct (lookup_lt_is_Some_2 counts tid Hlt) as [c Hc].
    specialize (H None). cbn in H. apply Bool.diff_false_true, H.
    apply list_elem_of_In, list_elem_of_lookup. exists tid.
    now rewrite list_lookup_imap, Hc, Hcount. }
  rewrite Hall. cbn [negb orb].
  rewrite (surjective_pairing (GB_FREE_ALL _)).
  cbn [info Chandle mask_applied stores ranges heap C_counts].
  intros Hnull. rewrite cache_nvec.
  split; [reflexivity|]. split; [eexists; repeat split; reflexivity|].
  split; [reflexivity|]. split; [reflexivity|]. split; [reflexivity|].
  split; [|exact Hnull].
  rewrite !mallocs_app.
  rewrite (proj1 (mallocs_count_events _ Entries)).
  rewrite (proj2 (frees_FREE_ALL _ Entries)). reflexivity.
Qed.

(** Line 134 as it is written: a slice whose cached count is negative on
    entry receives the count that GB_nvec_nonempty gives for [Aslice [0]],
    the matrix [A] of line 57, whichever slice it is. *)
Theorem slice_cache_of_first_slice tid At :
  Aslice !! tid = Some At -> nvec_nonempty At < 0 ->
  exists At',
    Aslice_out call !! tid = Some At'
    /\ nvec_nonempty At' = GB_nvec_nonempty A0
    /\ same_content At' At.
Proof.
  intros Ht Hneg. destruct dot2_inputs as (-> & _ & _).
  exists (cache_nvec_nonempty A0 At). rewrite lookup_map, Ht.
  split; [reflexivity|]. split; [|apply cache_fields].
  unfold cache_nvec_nonempty.
  destruct (Z.ltb_spec (nvec_nonempty At) 0); [reflexivity | lia].
Qed.

End DriverFacts.

(** ** The small call *)

(** The small call builds the 2x2 identity. *)
Example tiny_result :
  Chandle (tiny_call every_alloc (Some old_C))
  = Some (mkC 2 2 2 2 false [] [0; 1; 2]
              (Some [Some (0%nat, true); Some (1%nat, true)]) GB_MAGIC)
  /\ heap (tiny_call every_alloc (Some old_C))
     = [Malloc (Counts 0) 2; Malloc (Counts 1) 2; Malloc Header 3;
        Free (Counts 0); Malloc Entries 2; Free (Counts 1)]
  /\ ranges (tiny_call every_alloc (Some old_C))
     = [[(0, 1); (1, 1)]; [(1, 1); (1, 2)]]
  /\ stores (tiny_call every_alloc (Some old_C))
     = [[(0%nat, (0%nat, true))]; [(1%nat, (1%nat, true))]].
Proof. repeat split; reflexivity. Qed.

(** When only the count of thread 1 fails, the call returns the status of
    GB_NEW, which is success, and the handle holds a header that has not
    been initialised. *)
Example count_failure_returns_success :
  some_failure count_fails 2 = true
  /\ info (tiny_call count_fails None) = GrB_SUCCESS
  /\ Chandle (tiny_call count_fails None)
     = Some (mkC 2 2 2 (-1) false [] [-77; -76; -75] None GB_MAGIC2).
Proof. repeat split; reflexivity. Qed.



(** C5 as stated fails: GB_NEW fails, and the handle, which held a matrix,
    holds NULL when the call returns. *)
Lemma failure_resets_handle :
  some_failure new_fails 2 = true
  /\ ~ failure_contract (tiny_call new_fails (Some old_C)) (Some old_C).
Proof.
  split; [reflexivity|].
  intros (_ & _ & H). vm_compute in H. discriminate.
Qed.

Lemma failure_releases_scratch_witness :
  some_failure ix_fails 2 = true
  /\ (forall tid,
        mallocs (Counts tid) (heap (tiny_call ix_fails (Some old_C)))
        = frees (Counts tid) (heap (tiny_call ix_fails (Some old_C))))
  /\ info (tiny_call ix_fails (Some old_C)) = GrB_OUT_OF_MEMORY.
Proof.
  destruct (failure_releases_scratch LorFirstBool.GB_ADD LorFirstBool.GB_SAME
              LorFirstBool.GB_MULT LorFirstBool.GB_TERMINAL ix_fails
              (fun q => (Z.of_nat q - 77)%Z) (Some old_C) None false
              [tiny_slice0; tiny_slice1] tiny_B None eq_refl)
    as (Hbal & _ & _ & _ & _ & Hix).
  exact (conj eq_refl (conj Hbal (Hix eq_refl eq_refl eq_refl))).
Defined.




Lemma count_failure_status_witness :
  (1 < 2)%nat /\ count_alloc count_fails 1 = false
  /\ new_alloc count_fails = true
  /\ info (tiny_call count_fails None) = GrB_SUCCESS
  /\ stores (tiny_call count_fails None) = [].
Proof.
  destruct (count_failure_status LorFirstBool.GB_ADD LorFirstBool.GB_SAME
              LorFirstBool.GB_MULT LorFirstBool.GB_TERMINAL count_fails
              (fun q => (Z.of_nat q - 77)%Z) None None false
              [tiny_slice0; tiny_slice1] tiny_B None 1%nat
              (le_n 2) eq_refl eq_refl)
    as (Hinfo & _ & _ & Hstores & _).
  exact (conj (le_n 2) (conj eq_refl (conj eq_refl (conj Hinfo Hstores)))).
Defined.

Lemma slice_cache_of_first_slice_witness :
  [tiny_slice0; tiny_slice1] !! 1%nat = Some tiny_slice1
  /\ (nvec_nonempty tiny_slice1 < 0)%Z
  /\ exists At',
       Aslice_out (tiny_call every_alloc None) !! 1%nat = Some At'
       /\ nvec_nonempty At' = GB_nvec_nonempty tiny_slice0.
Proof.
  destruct (slice_cache_of_first_slice LorFirstBool.GB_ADD LorFirstBool.GB_SAME
              LorFirstBool.GB_MULT LorFirstBool.GB_TERMINAL every_alloc
              (fun q => (Z.of_nat q - 77)%Z) None None false
              [tiny_slice0; tiny_slice1] tiny_B None 1%nat tiny_slice1
              eq_refl eq_refl)
    as (At' & H1 & H2 & _).
  exact (conj eq_refl (conj eq_refl (ex_intro _ At' (conj H1 H2)))).
Defined.

(** ** The loop of lines 162-175 on its own *)

(** For any scratch arrays of [cnvec] counts that are not negative and
    whose sum is an [int64_t], the loop replaces, for every vector [k],
    the count of a thread by the sum of the counts of the threads before
    it, so that thread 0 receives 0, and leaves the sum of all counts in
    [Cp [k]]; it writes 0 to [Cp [cnvec]] and keeps the sizes of all
    arrays. *)
Theorem prefix_sum_loop cnvec (counts : list (list Z)) (Cp : list Z) :
  counts_ok cnvec counts -> length Cp = S cnvec ->
  let C_counts' := fst (scan_vectors cnvec counts Cp) in
  let Cp' := snd (scan_vectors cnvec counts Cp) in
  length C_counts' = length counts
  /\ length Cp' = S cnvec
  /\ Cp' !! cnvec = Some 0%Z
  /\ forall k, (k < cnvec)%nat ->
       Cp' !! k = Some (Zsum (column k counts))
       /\ forall tid C_count, C_counts' !! tid = Some C_count ->
            length C_count = cnvec
            /\ C_count !! k = Some (Zsum (take tid (column k counts))).
Proof.
  intros Hok HCp. rewrite (scan_vectors_spec cnvec counts Cp Hok HCp).
  cbn [fst snd].
  split; [now rewrite length_imap|].
  split; [rewrite length_app, length_map, length_seq; cbn; lia|].
  split.
  - rewrite lookup_app_r by (rewrite length_map, length_seq; lia).
    rewrite length_map, length_seq, Nat.sub_diag. reflexivity.
  - intros k Hk. split.
    + rewrite lookup_app_l by (rewrite length_map, length_seq; lia).
      now rewrite lookup_map, (lookup_seq_lt 0 cnvec k Hk).
    + intros tid C_count. rewrite list_lookup_imap.
      destruct (counts !! tid); [|discriminate]. cbn.
      intros H. injection H as <-.
      split; [now rewrite length_map, length_seq|].
      now rewrite lookup_map, (lookup_seq_lt 0 cnvec k Hk).
Qed.

Lemma prefix_sum_loop_witness :
  counts_ok 2 [[1; 0]; [2; 3]; [4; 0]]%Z
  /\ scan_vectors 2 [[1; 0]; [2; 3]; [4; 0]]%Z [9; 9; 9]%Z
     = ([[0; 0]; [1; 0]; [3; 3]]%Z, [7; 3; 0]%Z)
  /\ snd (scan_vectors 2 [[1; 0]; [2; 3]; [4; 0]]%Z [9; 9; 9]%Z) !! 2%nat
     = Some 0%Z.
Proof.
  assert (Hok : counts_ok 2 [[1; 0]; [2; 3]; [4; 0]]%Z).
  { split; [|vm_compute; discriminate].
    repeat constructor; cbn; lia. }
  exact (conj Hok (conj eq_refl
    (proj1 (proj2 (proj2
       (prefix_sum_loop 2 [[1; 0]; [2; 3]; [4; 0]]%Z [9; 9; 9]%Z Hok
                        eq_refl)))))).
Defined.

(** ** The operands that are not read *)

(** The opcode of the multiply operator, as far as lines 86-87 tell
    opcodes apart. *)
Inductive GB_Opcode : Type :=
| GB_FIRST_opcode
| GB_SECOND_opcode
| GB_other_opcode.

(** Lines 86-107: [(A_is_pattern, B_is_pattern)]. *)
Definition pattern_flags (opcode : GB_Opcode) (flipxy : bool) : bool * bool :=
  let op_is_first :=
    match opcode with GB_FIRST_opcode => true | _ => false end in
  let op_is_second :=
    match opcode with GB_SECOND_opcode => true | _ => false end in
  if flipxy then (op_is_first, op_is_second)
  else (op_is_second, op_is_first).

Section Generic.

(** The generic kernel of lines 288-392 works on values as bytes
    ([GB_void]): [fmult] is the function of the multiply operator,
    [z = fmult (x, y)], and the four casts bring an entry of [A] or of [B]
    to the type of [x] or of [y]. *)
Variable GB_void : Type.
Variable fmult : GB_void -> GB_void -> GB_void.
Variable A_to_x A_to_y B_to_x B_to_y : GB_void -> GB_void.

(** Lines 324-339. *)
Definition cast_A (flipxy : bool) : GB_void -> GB_void :=
  if flipxy then A_to_y else A_to_x.
Definition cast_B (flipxy : bool) : GB_void -> GB_void :=
  if flipxy then B_to_x else B_to_y.

(** Lines 346-351: [aki] is loaded unless [A] is a pattern; it then keeps
    what it held. *)
Definition GB_GETA (A_is_pattern flipxy : bool) (aki Ax_pA : GB_void)
    : GB_void :=
  if A_is_pattern then aki else cast_A flipxy Ax_pA.
Definition GB_GETB (B_is_pattern flipxy : bool) (bkj Bx_pB : GB_void)
    : GB_void :=
  if B_is_pattern then bkj else cast_B flipxy Bx_pB.

(** Lines 380-391: [GB_MULTIPLY (z, x, y)] is [fmult (z, y, x)] when
    [flipxy], [fmult (z, x, y)] otherwise. *)
Definition GB_MULTIPLY (flipxy : bool) (x y : GB_void) : GB_void :=
  if flipxy then fmult y x else fmult x y.

(** One product [GB_MULT (cij, aki, bkj)] of the kernel; [aki0] and [bkj0]
    are what the scalars [aki] and [bkj], which are not initialised,
    hold. *)
Definition product (opcode : GB_Opcode) (flipxy : bool)
    (aki0 bkj0 Ax_pA Bx_pB : GB_void) : GB_void :=
  let (A_is_pattern, B_is_pattern) := pattern_flags opcode flipxy in
  let aki := GB_GETA A_is_pattern flipxy aki0 Ax_pA in
  let bkj := GB_GETB B_is_pattern flipxy bkj0 Bx_pB in
  GB_MULTIPLY flipxy aki bkj.

(** The function of the operator does what its opcode says: FIRST gives
    its first argument, SECOND its second. *)
Definition implements (opcode : GB_Opcode) : Prop :=
  match opcode with
  | GB_FIRST_opcode => forall x y, fmult x y = x
  | GB_SECOND_opcode => forall x y, fmult x y = y
  | GB_other_opcode => True
  end.

(** An operand that is flagged as a pattern is one that the multiply
    operator does not look at: the product is the one of the two loaded
    entries, whatever the scalars that are not loaded hold; and [A] and
    [B] are never both flagged. *)
Theorem pattern_operands_unread opcode flipxy aki0 bkj0 Ax_pA Bx_pB :
  implements opcode ->
  product opcode flipxy aki0 bkj0 Ax_pA Bx_pB
  = GB_MULTIPLY flipxy (cast_A flipxy Ax_pA) (cast_B flipxy Bx_pB)
  /\ fst (pattern_flags opcode flipxy) && snd (pattern_flags opcode flipxy)
     = false.
Proof.
  intros H. unfold product, pattern_flags, GB_GETA, GB_GETB, GB_MULTIPLY.
  destruct opcode, flipxy; cbn in *; rewrite ?H; auto.
Qed.

End Generic.

(** FIRST with the arguments exchanged: [A] is passed as [y] and is not
    read. *)
Lemma pattern_operands_unread_witness :
  implements Z (fun x _ => x) GB_FIRST_opcode
  /\ product Z (fun x _ => x) Z.succ Z.pred Z.opp Z.abs
             GB_FIRST_opcode true 100%Z 200%Z 5%Z (-7)%Z
     = 7%Z.
Proof.
  assert (H : implements Z (fun x _ => x) GB_FIRST_opcode)
    by (intros x y; reflexivity).
  exact (conj H
    (proj1 (pattern_operands_unread Z (fun x _ => x) Z.succ Z.pred Z.opp
              Z.abs GB_FIRST_opcode true 100%Z 200%Z 5%Z (-7)%Z H))).
Defined.

End Dot2.
